(** * ESPIoTPiro MQTT client: reading aggregator and connection state

    A shallow embedding of [client.py]: the [UserData] object (reading
    store, persistence writer, windowed history, connection flags), the
    three transport callbacks and the active-mode poll loop of [main].

    Conventions of the embedding.
    - Python exceptions are values of [exn]; a computation returns
      [Ok v] or [Raise e] together with the world it leaves behind
      (mutations made before an exception stay).
    - The world is the single [UserData] instance, the file system
      (path to content, and the paths at which no file can be created),
      a counter of [datetime.now()] reads and the trace of observable
      effects, oldest first.
    - [float], [datetime.now] and the UTF-8 decoder are builtins of the
      host language; they are parameters of the development.
    - The language is Python 3: [print] is a function, a text file is
      read with universal newlines.  A printed line is an event, without
      its terminator.  The file system is POSIX: a line terminator is
      written as it is. *)

From Stdlib Require Import ZArith String Ascii List Bool Lia.
From stdpp Require Import base option list gmap strings pretty.

Local Open Scope string_scope.
Local Open Scope list_scope.

(** ** Host-language fragments *)

Module Py.

Inductive exn : Type :=
| AttributeError (attr : string)
| NameError (name : string)
| KeyError (key : string)
| IndexError
| ValueError (arg : string)
| TypeError (msg : string)
| UnicodeDecodeError
| FileNotFoundError (path : string)
| PermissionError (path : string)
| RuntimeError (msg : string).

Global Instance exn_eq_dec : EqDecision exn.
Proof. solve_decision. Defined.

Inductive result (A : Type) : Type :=
| Ok (a : A)
| Raise (e : exn).
Arguments Ok {A} a.
Arguments Raise {A} e.

(** A value that is an integer or a string, as an option of the command
    line is. *)
Inductive value : Type :=
| IntV (n : Z)
| StrV (s : string).

Coercion IntV : Z >-> value.
Bind Scope Z_scope with value.

Global Instance value_eq_dec : EqDecision value.
Proof. solve_decision. Defined.

Definition newline : ascii := "010"%char.
Definition carriage : ascii := "013"%char.
Definition comma : ascii := ","%char.
Definition nl : string := String newline EmptyString.

(** [s.split(sep)] for a one-character separator: never empty. *)
Fixpoint split (sep : ascii) (s : string) : list string :=
  match s with
  | EmptyString => [ EmptyString ]
  | String c s' =>
      if Ascii.eqb c sep then EmptyString :: split sep s'
      else match split sep s' with
           | [] => [ String c EmptyString ]
           | h :: t => String c h :: t
           end
  end.

(** [f.readlines()] on the content of a file opened as text, with
    universal newlines: a line ends at a line feed, at a carriage return
    or at a carriage return followed by a line feed, and each of them is
    read as one line feed; a last line without terminator is kept as it
    is. *)
Fixpoint readlines (s : string) : list string :=
  match s with
  | EmptyString => []
  | String c s' =>
      if Ascii.eqb c newline then nl :: readlines s'
      else if Ascii.eqb c carriage then
        nl :: match s' with
              | EmptyString => []
              | String c' s'' => if Ascii.eqb c' newline then readlines s'' else readlines s'
              end
      else match readlines s' with
           | [] => [ String c EmptyString ]
           | h :: t => String c h :: t
           end
  end.

(** The unary minus [-v]: defined on integers, [TypeError] on a string. *)
Definition neg (v : value) : result Z :=
  match v with
  | IntV n => Ok (- n)%Z
  | StrV _ => Raise (TypeError "bad operand type for unary -: 'str'")
  end.

(** The slice [l[start:]] for an arbitrary integer [start]: a negative
    bound counts from the end (clamped at 0), a non-negative one from
    the start (clamped at [len l]). *)
Definition slice_from {A : Type} (start : Z) (l : list A) : list A :=
  let len := Z.of_nat (length l) in
  drop (Z.to_nat (if start <? 0 then Z.max (len + start) 0 else Z.min start len)%Z) l.

(** The slice [l[-n:]] for an integer [n]; in particular [l[-0:]] is
    [l[0:]], the whole list. *)
Definition slice_last {A : Type} (n : Z) (l : list A) : list A := slice_from (- n) l.

(** [l[-1]] *)
Definition last_item {A : Type} (l : list A) : result A :=
  match last l with
  | Some x => Ok x
  | None => Raise IndexError
  end.

(** [xs.join] of written chunks: what [f.writelines(xs)] appends. *)
Definition concat_chunks (xs : list string) : string :=
  fold_right String.append EmptyString xs.

End Py.
Import Py.

(** ** Observable effects *)

Inductive event : Type :=
| LockAcquire                              (* entering [with self.lock] *)
| LockRelease                              (* leaving it, normally or not *)
| Printed (s : string)                       (* a line on standard output *)
| ExceptionPrinted (e : exn)     (* the line [Exception occured: ] and [repr(e)] *)
| StoreAppend (topic data : string)        (* [readings[topic] += [data]] *)
| PlotCall (topic data : string)           (* entry of [plot_reading] *)
| FileWrite (path : string) (chunks : list string)  (* [f.writelines] *)
| Subscribe (topic : string)               (* [client.subscribe] *)
| Connect (url : string) (port : Z).       (* [client.connect] *)

Global Instance event_eq_dec : EqDecision event.
Proof. solve_decision. Defined.

Section Client.

(** The type of Python floats and the builtin [float(s)]:
    [None] stands for [ValueError]. *)
Context {F : Type}.
Variable float : string -> option F.
(** [str(datetime.now())] at the k-th read of the clock. *)
Variable now : nat -> string.
(** [payload.decode("utf-8")]: [None] stands for [UnicodeDecodeError]. *)
Variable decode_utf8 : list Byte.byte -> option string.

(** One windowed series: the parallel x (labels) and y (numbers). *)
Definition series : Type := (list string * list F)%type.

(** The live plot table [self.plots]: station, then topic. *)
Definition plot_table : Type := gmap string (gmap string series).

(** The instance.  [self.lock] is no field of the record: taking and
    releasing it are events of the trace, and with several threads its
    holder is part of the system state ([holder] below).  [max_plot] is
    what the command line gives: the integer default or the string of
    the option [-n] ([max_plot_option] below). *)
Record UserData : Type := mkUserData {
  filename : string;
  topics : list string;
  verbose : bool;
  plot : bool;
  readings : gmap string (list string);
  plots : option plot_table;
  max_plot : value;
  default_plot : gmap string series;
  _connected : bool;
  _last_connected : bool;
  (** instance attributes created by assignment after construction *)
  extra_attrs : gmap string bool
}.

(** Why the file system refuses to create a file: the directory of the
    path does not exist, or it may not be written to. *)
Inductive refusal : Type :=
| NoDirectory
| NoPermission.

(** The exception of [open] for a refusal. *)
Definition refusal_exn (r : refusal) (path : string) : exn :=
  match r with
  | NoDirectory => FileNotFoundError path
  | NoPermission => PermissionError path
  end.

(** [files] are the regular files that the process reads and appends
    to, by path; [refused] says at which other paths no file can be
    created, and why.  The program creates no directory and changes no
    permission: [refused] stays as it is. *)
Record World : Type := mkWorld {
  self : UserData;
  files : gmap string string;
  refused : string -> option refusal;
  clock : nat;
  trace : list event
}.

(** *** The computation monad: state and exceptions *)

Definition M (A : Type) : Type := World -> result A * World.

#[global] Instance M_ret : MRet M := fun A a w => (Ok a, w).
#[global] Instance M_bind : MBind M := fun A B f m w =>
  match m w with
  | (Ok a, w') => f a w'
  | (Raise e, w') => (Raise e, w')
  end.

Definition raise {A : Type} (e : exn) : M A := fun w => (Raise e, w).
Definition gets {A : Type} (f : UserData -> A) : M A := fun w => (Ok (f (self w)), w).
Definition modify (f : UserData -> UserData) : M unit := fun w =>
  (Ok tt, mkWorld (f (self w)) (files w) (refused w) (clock w) (trace w)).
Definition emit (e : event) : M unit := fun w =>
  (Ok tt, mkWorld (self w) (files w) (refused w) (clock w) (trace w ++ [e])).
Definition when (b : bool) (m : M unit) : M unit := if b then m else mret tt.

(** [try: m except Exception as e: h e] *)
Definition try_except {A : Type} (m : M A) (h : exn -> M A) : M A := fun w =>
  match m w with
  | (Ok a, w') => (Ok a, w')
  | (Raise e, w') => h e w'
  end.

(** [with self.lock: body]; the lock is released on every exit. *)
Definition with_lock {A : Type} (body : M A) : M A := fun w =>
  match emit LockAcquire w with
  | (_, w1) =>
      match body w1 with
      | (r, w2) => (r, snd (emit LockRelease w2))
      end
  end.

Definition print (s : string) : M unit := emit (Printed s).

(** [datetime.now()] rendered by [str.format] *)
Definition datetime_now : M string := fun w =>
  (Ok (now (clock w)), mkWorld (self w) (files w) (refused w) (S (clock w)) (trace w)).

(** [os.path.exists(path)] *)
Definition path_exists (path : string) : M bool := fun w =>
  (Ok (bool_decide (is_Some (files w !! path))), w).

(** [open(path, "a")]: a file that is there is opened; where there is
    none an empty one is created, unless the file system refuses it. *)
Definition open_append (path : string) : M unit := fun w =>
  match files w !! path, refused w path with
  | Some _, _ => (Ok tt, w)
  | None, None =>
      (Ok tt, mkWorld (self w) (<[path := EmptyString]> (files w)) (refused w)
                (clock w) (trace w))
  | None, Some r => (Raise (refusal_exn r path), w)
  end.

(** [f.writelines(chunks)] on a file opened for appending *)
Definition writelines (path : string) (chunks : list string) : M unit := fun w =>
  (Ok tt, mkWorld (self w)
            (<[path := default EmptyString (files w !! path) +:+ concat_chunks chunks]> (files w))
            (refused w) (clock w) (trace w ++ [FileWrite path chunks])).

(** *** Field updates *)

Definition set_readings (r : gmap string (list string)) (u : UserData) : UserData :=
  mkUserData (filename u) (topics u) (verbose u) (plot u) r (plots u)
    (max_plot u) (default_plot u) (_connected u) (_last_connected u) (extra_attrs u).
Definition set__connected (b : bool) (u : UserData) : UserData :=
  mkUserData (filename u) (topics u) (verbose u) (plot u) (readings u) (plots u)
    (max_plot u) (default_plot u) b (_last_connected u) (extra_attrs u).
Definition set__last_connected (b : bool) (u : UserData) : UserData :=
  mkUserData (filename u) (topics u) (verbose u) (plot u) (readings u) (plots u)
    (max_plot u) (default_plot u) (_connected u) b (extra_attrs u).
Definition set_extra_attr (name : string) (b : bool) (u : UserData) : UserData :=
  mkUserData (filename u) (topics u) (verbose u) (plot u) (readings u) (plots u)
    (max_plot u) (default_plot u) (_connected u) (_last_connected u)
    (<[name := b]> (extra_attrs u)).

(** *** Construction and the startup history load (lines 22-48) *)

(** Lines 43-48: the columns of one data row, paired with the header's
    columns; [x] is [data[0]]. *)
Fixpoint load_row (tps : list string) (mp : value) (x : string)
    (cols : list (string * string)) (dp : gmap string series)
    : result (gmap string series) :=
  match cols with
  | [] => Ok dp
  | (topic, val) :: rest =>
      if bool_decide (topic ∈ tps) then
        match dp !! topic with
        | None => Raise (KeyError topic)
        | Some (xs, ys) =>
            match float val with
            | None => Raise (ValueError val)
            | Some y =>
                match neg mp with
                | Raise e => Raise e
                | Ok start =>
                    load_row tps mp x rest
                      (<[topic := (slice_from start (xs ++ [x]),
                                   slice_from start (ys ++ [y]))]> dp)
                end
            end
        end
      else load_row tps mp x rest dp
  end.

(** Lines 38-48: the enumerated lines; line 0 becomes the header. *)
Fixpoint load_lines (tps : list string) (mp : value) (i : nat) (header : list string)
    (lines : list string) (dp : gmap string series) : result (gmap string series) :=
  match lines with
  | [] => Ok dp
  | line :: rest =>
      let data := split comma line in
      if (i =? 0)%nat then load_lines tps mp (S i) data rest dp
      else
        match load_row tps mp (hd EmptyString data) (zip (tail header) (tail data)) dp with
        | Ok dp' => load_lines tps mp (S i) header rest dp'
        | Raise e => Raise e
        end
  end.

Definition __init__ (fname : string) (tps : list string) (vb pl : bool) (mp : value)
    (fs : gmap string string) : result UserData :=
  let rd : gmap string (list string) := list_to_map ((fun t => (t, [])) <$> tps) in
  let dp0 : gmap string series := list_to_map ((fun t => (t, ([], []))) <$> tps) in
  let obj dp := mkUserData fname tps vb pl rd None mp dp false false ∅ in
  match fs !! fname with
  | Some content =>
      if pl then
        match load_lines tps mp 0 [] (readlines content) dp0 with
        | Ok dp => Ok (obj dp)
        | Raise e => Raise e
        end
      else Ok (obj dp0)
  | None => Ok (obj dp0)
  end.

(** *** The properties of the class body (lines 50-68) *)

(** A [property] object: its getter and, when it has one, its setter. *)
Record property : Type := mkProperty {
  fget : M bool;
  fset : option (bool -> M unit)
}.

(** [property(f)] and [p.setter(f)]: the latter is a copy of [p] with
    the setter replaced. *)
Definition property_of (f : M bool) : property := mkProperty f None.
Definition setter (p : property) (f : bool -> M unit) : property :=
  mkProperty (fget p) (Some f).

(** The four function bodies, in source order. *)
Definition def_51 : M bool := with_lock (gets _connected).
Definition def_56 (value : bool) : M unit := with_lock (modify (set__connected value)).
Definition def_61 : M bool := with_lock (gets _last_connected).
Definition def_66 (value : bool) : M unit := with_lock (modify (set__last_connected value)).

(** A decorated [def]: [@property def name] binds [name] to a fresh
    property; [@target.setter def name] looks [target] up in the
    namespace built so far and binds the result to [name], the name of
    the function being defined. *)
Definition bind_property (name : string) (f : M bool)
    (ns : gmap string property) : gmap string property :=
  <[name := property_of f]> ns.
Definition bind_setter (target name : string) (f : bool -> M unit)
    (ns : gmap string property) : gmap string property :=
  match ns !! target with
  | Some p => <[name := setter p f]> ns
  | None => ns
  end.

(** The class namespace after the class body has run. *)
Definition class_namespace : gmap string property :=
  bind_setter "last_connected" "connected" def_66     (* lines 65-68 *)
    (bind_property "last_connected" def_61            (* lines 60-63 *)
       (bind_setter "connected" "connected" def_56    (* lines 55-58 *)
          (bind_property "connected" def_51 ∅))).     (* lines 50-53 *)

(** [userdata.name] and [userdata.name = value] for the boolean
    attributes: a property of the class wins over the instance. *)
Definition getattr (name : string) : M bool :=
  match class_namespace !! name with
  | Some p => fget p
  | None =>
      d ← gets extra_attrs;
      match d !! name with
      | Some b => mret b
      | None => raise (AttributeError name)
      end
  end.
Definition setattr (name : string) (value : bool) : M unit :=
  match class_namespace !! name with
  | Some p =>
      match fset p with
      | Some f => f value
      | None => raise (AttributeError name)
      end
  | None => modify (set_extra_attr name value)
  end.

(** *** Persistence (lines 85-95) *)

Definition header : string := "date,topic,data".

Definition record_line (stamp topic data : string) : string :=
  stamp +:+ "," +:+ topic +:+ "," +:+ data.

Definition write_last_reading (topic : string) : M unit :=
  rd ← gets readings;
  stamp ← datetime_now;
  l ← match rd !! topic with
      | Some l => mret l
      | None => raise (KeyError topic)
      end;
  x ← match last_item l with
      | Ok x => mret x
      | Raise e => raise e
      end;
  let line := record_line stamp topic x in
  fname ← gets filename;
  present ← path_exists fname;
  let write_headers := negb present in
  open_append fname;;
  when write_headers (print header;; writelines fname [header; nl]);;
  print line;;
  writelines fname [line; nl].

(** *** Live plotting (lines 110-126) *)

(** [not self.plots] *)
Definition plots_falsy (p : option plot_table) : bool :=
  match p with
  | None => true
  | Some t => bool_decide (t = ∅)
  end.

(** After the guard for the literal [nan], the body first reads
    [self.stations], an attribute that neither the constructor nor the
    class defines, when the table is empty; with a table it reads the
    name [station], which no scope binds.  Lines 118-126 are never
    reached. *)
Definition plot_reading (topic data : string) : M unit :=
  emit (PlotCall topic data);;
  if String.eqb data "nan" then mret tt
  else
    p ← gets plots;
    when (plots_falsy p) (raise (AttributeError "stations"));;
    raise (NameError "station").

(** *** The reading store (lines 70-83) *)

Definition add_reading (topic data : string) : M unit :=
  with_lock (
    rd ← gets readings;
    match rd !! topic with
    | None => mret tt
    | Some l =>
        modify (set_readings (<[topic := l ++ [data]]> rd));;
        emit (StoreAppend topic data);;
        vb ← gets verbose;
        when vb (print (topic +:+ " " +:+ data));;
        pl ← gets plot;
        when pl (plot_reading topic data);;
        write_last_reading topic
    end).

(** *** Transport callbacks (lines 129-148) *)

Fixpoint for_each {A : Type} (l : list A) (body : A -> M unit) : M unit :=
  match l with
  | [] => mret tt
  | a :: l' => body a;; for_each l' body
  end.

Definition on_disconnect (rc : Z) : M unit :=
  print ("Disconnected " +:+ pretty rc);;
  setattr "connected" false.

Definition on_connect (rc : Z) : M unit :=
  print ("Connected " +:+ pretty rc);;
  if bool_decide (rc = 0%Z) then
    tps ← gets topics;
    for_each tps (fun topic => emit (Subscribe topic));;
    setattr "connected" true;;
    setattr "last_connected" true
  else mret tt.

Record message : Type := mkMessage {
  msg_topic : string;
  msg_payload : list Byte.byte
}.

Definition on_message (msg : message) : M unit :=
  data ← match decode_utf8 (msg_payload msg) with
         | Some s => mret s
         | None => raise UnicodeDecodeError
         end;
  try_except (add_reading (msg_topic msg) data)
    (fun e => emit (ExceptionPrinted e)).

(** *** The poll loop of [main] in active mode (lines 151-174) *)

(** What the transport has pending when [client.loop()] is called. *)
Inductive net_event : Type :=
| ConnAck (rc : Z)
| Disconnected (rc : Z)
| Incoming (msg : message).

Definition deliver (ev : net_event) : M unit :=
  match ev with
  | ConnAck rc => on_connect rc
  | Disconnected rc => on_disconnect rc
  | Incoming msg => on_message msg
  end.

(** [client.loop()]: runs the callback of at most one pending event.
    An exception of the callback leaves [loop] unless the transport's
    [suppress_exceptions] is set. *)
Definition client_loop (suppress_exceptions : bool) (pending : option net_event) : M unit :=
  match pending with
  | None => mret tt
  | Some ev =>
      if suppress_exceptions then try_except (deliver ev) (fun _ => mret tt)
      else deliver ev
  end.

(** Lines 172-174.  [not a and b] reads [b] only when [a] is false. *)
Definition reconnect_check (url : string) (port : Z) : M unit :=
  c ← getattr "connected";
  fire ← (if negb c then getattr "last_connected" else mret false);
  when fire (setattr "last_connected" false;; emit (Connect url port)).

(** Lines 168-174, one iteration for each entry of the schedule; the
    schedule is what the transport has pending at each [client.loop()]. *)
Fixpoint poll (suppress_exceptions : bool) (url : string) (port : Z)
    (schedule : list (option net_event)) : M unit :=
  match schedule with
  | [] => mret tt
  | pending :: rest =>
      client_loop suppress_exceptions pending;;
      reconnect_check url port;;
      poll suppress_exceptions url port rest
  end.

(** [main] with [plot] set: construction, the first connect attempt,
    then the poll loop.  Without [plot] the callbacks run on the
    transport's own thread and [main] only waits for the operator. *)
Definition main (url : string) (port : Z) (tps : list string) (fname : string)
    (vb : bool) (mp : value) (suppress_exceptions : bool)
    (schedule : list (option net_event)) (fs : gmap string string)
    (rf : string -> option refusal)
    : result unit * option World :=
  match __init__ fname tps vb true mp fs with
  | Raise e => (Raise e, None)
  | Ok u =>
      match (emit (Connect url port);; poll suppress_exceptions url port schedule)
              (mkWorld u fs rf 0 []) with
      | (r, w) => (r, Some w)
      end
  end.

(** Lines 197-198: the option [-n] is declared without [type=]: its
    value is the argument as a string, and the integer 120 when the
    option is not given. *)
Definition max_plot_option (arg : option string) : value :=
  match arg with
  | Some s => StrV s
  | None => IntV 120
  end.

End Client.

(** * Concurrent delivery contexts

    Several delivery contexts (threads) handle the messages they are
    given, all on the one [UserData].  For that the statements of
    [add_reading] and of the functions it calls are written once more as
    programs: trees of steps, each step one operation of the embedding
    above, made by one thread without another thread in between.  The
    read and the write of [readings[topic] += [data]] are two steps.
    Taking and releasing the lock are steps of their own: what they do
    depends on the lock, which the threads share.  The steps of
    different threads interleave in any order.

    Run by one thread, each program is the function of the embedding
    above (lemmas [run_seq_add_reading] and [run_seq_handle]). *)

Section Delivery.

Context {F : Type}.
Variable now : nat -> string.

(** A program that returns an [A]. *)
Inductive prog (A : Type) : Type :=
| Ret (a : A)
| Throw (e : exn)
| Step {X : Type} (op : M (F:=F) X) (k : result X -> prog A)
| Acquire (k : prog A)                      (* [self.lock.acquire()] *)
| Release (k : result unit -> prog A).      (* [self.lock.release()] *)
Arguments Ret {A} a.
Arguments Throw {A} e.
Arguments Step {A X} op k.
Arguments Acquire {A} k.
Arguments Release {A} k.

Fixpoint p_bind {A B : Type} (p : prog A) (f : A -> prog B) : prog B :=
  match p with
  | Ret a => f a
  | Throw e => Throw e
  | Step op k => Step op (fun r => p_bind (k r) f)
  | Acquire k => Acquire (p_bind k f)
  | Release k => Release (fun r => p_bind (k r) f)
  end.

#[local] Instance prog_ret : MRet prog := fun A a => Ret a.
#[local] Instance prog_bind : MBind prog := fun A B f p => p_bind p f.

(** An operation as a program of one step. *)
Definition lift {X : Type} (m : M (F:=F) X) : prog X :=
  Step m (fun r => match r with
                   | Ok x => Ret x
                   | Raise e => Throw e
                   end).

Definition p_when (b : bool) (p : prog unit) : prog unit := if b then p else Ret tt.

(** [try: p except Exception as e: h e] *)
Fixpoint p_try {A : Type} (p : prog A) (h : exn -> prog A) : prog A :=
  match p with
  | Ret a => Ret a
  | Throw e => h e
  | Step op k => Step op (fun r => p_try (k r) h)
  | Acquire k => Acquire (p_try k h)
  | Release k => Release (fun r => p_try (k r) h)
  end.

(** [p], and the release of the lock on every exit of it; an exception
    of the release replaces the one in flight. *)
Fixpoint p_finally_release {A : Type} (p : prog A) : prog A :=
  match p with
  | Ret a => Release (fun r => match r with
                               | Ok _ => Ret a
                               | Raise e => Throw e
                               end)
  | Throw e => Release (fun r => match r with
                                 | Ok _ => Throw e
                                 | Raise e' => Throw e'
                                 end)
  | Step op k => Step op (fun r => p_finally_release (k r))
  | Acquire k => Acquire (p_finally_release k)
  | Release k => Release (fun r => p_finally_release (k r))
  end.

(** [with self.lock: body] *)
Definition p_with_lock {A : Type} (body : prog A) : prog A :=
  Acquire (p_finally_release body).

(** Lines 110-115. *)
Definition plot_reading_prog (topic data : string) : prog unit :=
  lift (emit (PlotCall topic data));;
  if String.eqb data "nan" then Ret tt
  else
    p ← lift (gets plots);
    p_when (plots_falsy p) (Throw (AttributeError "stations"));;
    Throw (NameError "station").

(** Lines 85-95. *)
Definition write_last_reading_prog (topic : string) : prog unit :=
  rd ← lift (gets readings);
  stamp ← lift (datetime_now now);
  l ← match rd !! topic return prog (list string) with
      | Some l => Ret l
      | None => Throw (KeyError topic)
      end;
  x ← match last_item l return prog string with
      | Ok x => Ret x
      | Raise e => Throw e
      end;
  let line := record_line stamp topic x in
  fname ← lift (gets filename);
  present ← lift (path_exists fname);
  let write_headers := negb present in
  lift (open_append fname);;
  p_when write_headers (lift (print header);; lift (writelines fname [header; nl]));;
  lift (print line);;
  lift (writelines fname [line; nl]).

(** Lines 77-83, after the append. *)
Definition add_reading_tail (topic data : string) : prog unit :=
  lift (emit (StoreAppend topic data));;
  vb ← lift (gets verbose);
  p_when vb (lift (print (topic +:+ " " +:+ data)));;
  pl ← lift (gets plot);
  p_when pl (plot_reading_prog topic data);;
  write_last_reading_prog topic.

(** Lines 73-83, once [readings] was read as [rd] (line 72). *)
Definition add_reading_rest (topic data : string) (rd : gmap string (list string))
    : prog unit :=
  match rd !! topic with
  | None => Ret tt
  | Some l =>
      lift (modify (set_readings (<[topic := l ++ [data]]> rd)));;
      add_reading_tail topic data
  end.

(** Lines 70-83. *)
Definition add_reading_prog (topic data : string) : prog unit :=
  p_with_lock (rd ← lift (gets readings); add_reading_rest topic data rd).

(** A call [add_reading(topic, data)]. *)
Definition call : Type := (string * string)%type.

(** Lines 145-148: the handler of a message whose payload is decoded. *)
Definition handle_prog (c : call) : prog unit :=
  p_try (add_reading_prog (fst c) (snd c)) (fun e => lift (emit (ExceptionPrinted e))).

(** The handler of line 148. *)
Definition print_exception (e : exn) : prog unit := lift (emit (ExceptionPrinted e)).

(** What is left of the handler of the call [c] once the lock is taken
    (line 72 next), and once [readings] was read as [rd] (line 73
    next). *)
Definition entered_prog (c : call) : prog unit :=
  p_try (p_finally_release (rd ← lift (gets readings); add_reading_rest (fst c) (snd c) rd))
    print_exception.
Definition loaded_prog (c : call) (rd : gmap string (list string)) : prog unit :=
  p_try (p_finally_release (add_reading_rest (fst c) (snd c) rd)) print_exception.

(** A program run by one thread, the lock being free where it is
    taken. *)
Fixpoint run_seq {A : Type} (p : prog A) : M (F:=F) A :=
  match p with
  | Ret a => mret a
  | Throw e => raise e
  | Step op k => fun w => let (r, w') := op w in run_seq (k r) w'
  | Acquire k => fun w => run_seq k (snd (emit LockAcquire w))
  | Release k => fun w => run_seq (k (Ok tt)) (snd (emit LockRelease w))
  end.

(** A thread: the calls it has still to start and, when it is in a
    call, that call and what is left of its handler. *)
Record thread : Type := mkThread {
  queue : list call;
  running : option (call * prog unit)
}.

Record system : Type := mkSystem {
  world : World (F:=F);
  (** the lock: free, or taken, with the thread that took it *)
  holder : option nat;
  threads : list thread;
  (** history: at each release of the lock, the thread that released
      and the call it was in *)
  completed : list (nat * call)
}.

(** One step of thread [i], if it can make one.  A thread that is in no
    call starts the next one of its queue; a thread whose handler has
    returned is out of the call; a thread makes the next step of its
    handler, whatever the other threads are at, except that the lock is
    taken only when it is free: until then the thread waits.  Releasing
    a lock that is free raises [RuntimeError].  A thread whose handler
    has raised is dead. *)
Definition step (i : nat) (s : system) : option system :=
  match threads s !! i with
  | None => None
  | Some th =>
      let continue (w : World) (h : option nat) (c : call) (p : prog unit)
                   (done : list (nat * call)) :=
        Some (mkSystem w h (<[i := mkThread (queue th) (Some (c, p))]> (threads s)) done) in
      match running th with
      | None =>
          match queue th with
          | [] => None
          | c :: q =>
              Some (mkSystem (world s) (holder s)
                      (<[i := mkThread q (Some (c, handle_prog c))]> (threads s)) (completed s))
          end
      | Some (c, Ret _) =>
          Some (mkSystem (world s) (holder s)
                  (<[i := mkThread (queue th) None]> (threads s)) (completed s))
      | Some (c, Throw _) => None
      | Some (c, Step op k) =>
          let (r, w') := op (world s) in continue w' (holder s) c (k r) (completed s)
      | Some (c, Acquire k) =>
          match holder s with
          | Some _ => None
          | None => continue (snd (emit LockAcquire (world s))) (Some i) c k (completed s)
          end
      | Some (c, Release k) =>
          match holder s with
          | Some _ =>
              continue (snd (emit LockRelease (world s))) None c (k (Ok tt))
                (completed s ++ [(i, c)])
          | None =>
              continue (world s) None c (k (Raise (RuntimeError "release unlocked lock")))
                (completed s)
          end
      end
  end.

(** A schedule names the thread that makes each step. *)
Fixpoint run (schedule : list nat) (s : system) : option system :=
  match schedule with
  | [] => Some s
  | i :: rest =>
      match step i s with
      | Some s' => run rest s'
      | None => None
      end
  end.

(** The threads before their first step, the lock free. *)
Definition initial (w : World (F:=F)) (qs : list (list call)) : system :=
  mkSystem w None ((fun q => mkThread q None) <$> qs) [].

(** Every call made and returned from, and the lock free. *)
Definition finished (s : system) : Prop :=
  holder s = None /\ Forall (fun th => queue th = [] /\ running th = None) (threads s).

(** The calls of thread [i] among [cs], in the order of [cs]. *)
Definition calls_of (i : nat) (cs : list (nat * call)) : list call :=
  snd <$> List.filter (fun c => bool_decide (fst c = i)) cs.

(** The values of the calls for [topic] among [cs], in the order of [cs]. *)
Definition values_for (topic : string) (cs : list call) : list string :=
  snd <$> List.filter (fun c => bool_decide (fst c = topic)) cs.

(** The number of calls for [topic] that the threads were given. *)
Definition calls_for (topic : string) (qs : list (list call)) : nat :=
  sum_list ((fun q => length (values_for topic q)) <$> qs).

End Delivery.

Arguments Ret {F A} a.
Arguments Throw {F A} e.
Arguments Step {F A X} op k.
Arguments Acquire {F A} k.
Arguments Release {F A} k.


(** * Vocabulary of the statements *)

Section Vocabulary.

Context {F : Type}.

(** The events that [m] adds to the trace when run in [w]. *)
Definition effects {A : Type} (m : M (F:=F) A) (w : World (F:=F)) : list event :=
  drop (length (trace w)) (trace (snd (m w))).

(** Every key of the store is a configured topic, and conversely. *)
Definition store_keys_configured (u : UserData (F:=F)) : Prop :=
  forall t : string, is_Some (readings u !! t) <-> t ∈ topics u.

(** What one call of [write_last_reading] prints and writes for [line],
    depending on whether the log was [present] before the call. *)
Definition persist_events (present : bool) (fname line : string) : list event :=
  (if present then [] else [Printed header; FileWrite fname [header; nl]])
  ++ [Printed line; FileWrite fname [line; nl]].

(** The file system after that call. *)
Definition persisted (fs : gmap string string) (fname line : string) : gmap string string :=
  <[fname := match fs !! fname with
             | Some c => c
             | None => header +:+ nl
             end +:+ line +:+ nl]> fs.

(** [open(path, "a")] succeeds in [w]: the file is there, or it can be
    created. *)
Definition opens (w : World (F:=F)) (path : string) : Prop :=
  is_Some (files w !! path) \/ refused w path = None.

(** Lines 77-83 of [add_reading]: what follows the append. *)
Definition after_append (now : nat -> string) (topic data : string) : M (F:=F) unit :=
  vb ← gets verbose;
  when vb (print (topic +:+ " " +:+ data));;
  pl ← gets plot;
  when pl (plot_reading topic data);;
  write_last_reading now topic.

(** A line of a text file without its terminator; [None] when the line
    does not end with one. *)
Fixpoint chomp (line : string) : option string :=
  match line with
  | EmptyString => None
  | String c EmptyString => if Ascii.eqb c newline then Some EmptyString else None
  | String c rest => String c <$> chomp rest
  end.

(** The fields of a line of the log: the line without its terminator,
    split at its commas. *)
Definition fields (line : string) : option (list string) :=
  split comma <$> chomp line.

(** A line made of three fields joined by commas and followed by a line
    terminator. *)
Definition three_fields (line : string) : Prop :=
  exists a b c : string, fields line = Some [a; b; c].

Definition is_connect (e : event) : bool :=
  match e with
  | Connect _ _ => true
  | _ => false
  end.

(** The number of [client.connect] calls in a trace. *)
Definition connect_attempts (tr : list event) : nat :=
  length (List.filter is_connect tr).

(** [m] adds no [client.connect] to the trace, whatever the world. *)
Definition quiet {A : Type} (m : M (F:=F) A) : Prop :=
  forall w : World (F:=F),
    exists tr : list event,
      trace (snd (m w)) = trace w ++ tr /\ connect_attempts tr = 0%nat.

(** The last reading of a topic, as [readings[topic][-1]] finds it. *)
Definition last_reading (u : UserData (F:=F)) (topic : string) : option string :=
  readings u !! topic ≫= last.

(** The record lines of consecutive [write_last_reading] calls for the
    topics [tps], the clock having been read [k] times before. *)
Definition record_lines (now : nat -> string) (u : UserData (F:=F)) (k : nat)
    (tps : list string) : list string :=
  imap (fun i topic => record_line (now (k + i)%nat) topic (default "" (last_reading u topic))) tps.

(** A text file made of the given lines, each with its terminator. *)
Definition render (lines : list string) : string :=
  fold_right (fun line rest => line +:+ nl +:+ rest) "" lines.

(** The prints and writes of the given lines, one [writelines] a line. *)
Definition write_events (fname : string) (lines : list string) : list event :=
  flat_map (fun line => [Printed line; FileWrite fname [line; nl]]) lines.

(** The lock after the events of [tr], when it was [held] before (or
    free): [None] when [tr] takes the lock while it is held, which for
    the one thread of the trace means waiting for itself, or releases it
    while it is free. *)
Fixpoint lock_after (held : bool) (tr : list event) : option bool :=
  match tr with
  | [] => Some held
  | LockAcquire :: tr' => if held then None else lock_after true tr'
  | LockRelease :: tr' => if held then lock_after false tr' else None
  | _ :: tr' => lock_after held tr'
  end.

(** [m] neither takes nor releases the lock. *)
Definition lockless {A : Type} (m : M (F:=F) A) : Prop :=
  forall w : World (F:=F),
    exists tr : list event,
      trace (snd (m w)) = trace w ++ tr /\ forall held : bool, lock_after held tr = Some held.

(** Started with the lock free, [m] never takes it twice and leaves it
    free, however it ends. *)
Definition lock_safe {A : Type} (m : M (F:=F) A) : Prop :=
  forall w : World (F:=F),
    exists tr : list event,
      trace (snd (m w)) = trace w ++ tr /\ lock_after false tr = Some false.

(** From [u] to [u']: the configuration, the windowed tables and the
    field [_connected] are the same, the store has the same keys, and
    every stored sequence has only grown at its end. *)
Definition evolves (u u' : UserData (F:=F)) : Prop :=
  filename u' = filename u /\ topics u' = topics u /\ verbose u' = verbose u /\
  plot u' = plot u /\ max_plot u' = max_plot u /\ plots u' = plots u /\
  default_plot u' = default_plot u /\ _connected u' = _connected u /\
  extra_attrs u' = extra_attrs u /\
  forall topic : string,
    match readings u !! topic with
    | Some l => exists l' : list string, readings u' !! topic = Some (l ++ l')
    | None => readings u' !! topic = None
    end.

(** The x and y of every series have the same length. *)
Definition series_parallel (dp : gmap string (series (F:=F))) : Prop :=
  map_Forall (fun _ s => length (fst s) = length (snd s)) dp.

(** The character [c] occurs in [s]. *)
Fixpoint occurs (c : ascii) (s : string) : bool :=
  match s with
  | EmptyString => false
  | String c' s' => Ascii.eqb c' c || occurs c s'
  end.

(** A string that holds no line terminator. *)
Definition one_line (s : string) : Prop :=
  occurs newline s = false /\ occurs carriage s = false.

(** A record of the log (time stamp, topic, value) whose fields contain
    neither a comma nor a line terminator. *)
Definition clean (r : string * string * string) : Prop :=
  let '(stamp, topic, data) := r in
  (occurs comma stamp = false /\ occurs comma topic = false /\ occurs comma data = false) /\
  (one_line stamp /\ one_line topic /\ one_line data).

(** The records of consecutive [write_last_reading] calls for the topics
    [tps], the clock having been read [k] times before. *)
Definition records (now : nat -> string) (u : UserData (F:=F)) (k : nat)
    (tps : list string) : list (string * string * string) :=
  imap (fun i topic => (now (k + i)%nat, topic, default "" (last_reading u topic))) tps.

(** The three fields of a record. *)
Definition fields_of (r : string * string * string) : list string :=
  let '(stamp, topic, data) := r in [stamp; topic; data].

(** The line that [write_last_reading] writes for a record. *)
Definition line_of (r : string * string * string) : string :=
  let '(stamp, topic, data) := r in record_line stamp topic data.

(** The handlers of the calls [cs] run one after the other by one
    thread: lines 145-148 of [on_message] for each. *)
Definition serial (now : nat -> string) (cs : list call) : M (F:=F) unit :=
  for_each cs (fun c => try_except (add_reading now (fst c) (snd c))
                          (fun e => emit (ExceptionPrinted e))).

(** [op] leaves the store as it is. *)
Definition keeps_store {X : Type} (op : M (F:=F) X) : Prop :=
  forall w : World (F:=F), readings (self (snd (op w))) = readings (self w).

(** A program that leaves the lock alone and the store as it is; of a
    step, what follows is taken for the results that the step can
    have. *)
Inductive keeps {A : Type} : prog (F:=F) A -> Prop :=
| keeps_ret (a : A) : keeps (Ret a)
| keeps_throw (e : exn) : keeps (Throw e)
| keeps_step (X : Type) (op : M X) (k : result X -> prog A) :
    keeps_store op -> (forall w : World, keeps (k (fst (op w)))) -> keeps (Step op k).

(** Such a program that returns, however its steps end: what a handler
    is at after it has left the lock. *)
Inductive outside : prog (F:=F) unit -> Prop :=
| outside_ret (a : unit) : outside (Ret a)
| outside_step (X : Type) (op : M X) (k : result X -> prog unit) :
    keeps_store op -> (forall w : World, outside (k (fst (op w)))) -> outside (Step op k).

(** A program that leaves the store as it is, then releases the lock,
    once, and is [outside] from there. *)
Inductive closing : prog (F:=F) unit -> Prop :=
| closing_release (k : result unit -> prog unit) :
    outside (k (Ok tt)) -> closing (Release k)
| closing_step (X : Type) (op : M X) (k : result X -> prog unit) :
    keeps_store op -> (forall w : World, closing (k (fst (op w)))) -> closing (Step op k).

(** The store holds, for each of its topics, what it held in [w0]
    followed by the values of the calls that have left the lock and of
    the calls [extra], in this order. *)
Definition store_is (w0 : World (F:=F)) (extra : list call) (s : system (F:=F)) : Prop :=
  forall topic : string,
    readings (self (world s)) !! topic =
      (fun l0 => l0 ++ values_for topic ((snd <$> completed s) ++ extra))
        <$> (readings (self w0) !! topic).

(** Where the thread that holds the lock stands in its call [c]: line
    72 next, or line 75 next with the store as it was read, or past the
    append of line 75 (or past the return of line 74). *)
Definition inside (now : nat -> string) (w0 : World (F:=F)) (s : system (F:=F)) (c : call)
    (p : prog (F:=F) unit) : Prop :=
  (p = entered_prog now c /\ store_is w0 [] s) \/
  (is_Some (readings (self (world s)) !! fst c) /\
   p = loaded_prog now c (readings (self (world s))) /\ store_is w0 [] s) \/
  (closing p /\ store_is w0 [c] s).

(** What holds of thread [i], given the calls [q0] it was handed: a
    thread in no call holds no lock; a thread in a call waits for the
    lock, or holds it and is [inside], or has released it.  Its calls
    are those that have left the lock, then the one it is in if that
    has not, then those of its queue. *)
Definition thread_ok (now : nat -> string) (w0 : World (F:=F)) (s : system (F:=F))
    (i : nat) (q0 : list call) (th : thread (F:=F)) : Prop :=
  match running th with
  | None => holder s <> Some i /\ q0 = calls_of i (completed s) ++ queue th
  | Some (c, p) =>
      (holder s <> Some i /\ p = handle_prog now c /\
       q0 = calls_of i (completed s) ++ c :: queue th) \/
      (holder s <> Some i /\ outside p /\ q0 = calls_of i (completed s) ++ queue th) \/
      (holder s = Some i /\ inside now w0 s c p /\
       q0 = calls_of i (completed s) ++ c :: queue th)
  end.

(** What every state of a run from [initial w0 qs0] satisfies. *)
Record consistent (now : nat -> string) (w0 : World (F:=F)) (qs0 : list (list call))
    (s : system (F:=F)) : Prop := mkConsistent {
  cons_threads : length (threads s) = length qs0;
  cons_thread : forall (i : nat) (th : thread),
    threads s !! i = Some th ->
    exists q0 : list call, qs0 !! i = Some q0 /\ thread_ok now w0 s i q0 th;
  cons_free : holder s = None -> store_is w0 [] s;
  cons_holder : forall i : nat, holder s = Some i -> is_Some (threads s !! i);
  cons_ids : Forall (fun ic => (fst ic < length qs0)%nat) (completed s)
}.

(** What a thread has left to do: the calls of its queue and the call it
    is in; and what all threads have. *)
Definition pending (th : thread (F:=F)) : nat :=
  (length (queue th) + match running th with
                       | Some _ => 1
                       | None => 0
                       end)%nat.
Definition backlog (s : system (F:=F)) : nat := sum_list (pending <$> threads s).

(** Every windowed series of the table holds at most [n] entries. *)
Definition window_bounded (n : Z) (dp : gmap string (series (F:=F))) : Prop :=
  map_Forall (fun _ s => (Z.of_nat (length (fst s)) <= n)%Z /\
                         (Z.of_nat (length (snd s)) <= n)%Z) dp.

End Vocabulary.

(** ** Sample parameters for concrete runs *)

Module Sample.

(** The clock reads [t0], [t1], ... *)
Definition now (k : nat) : string := "t" +:+ pretty k.

Definition digit (c : ascii) : option Z :=
  let n := Z.of_nat (nat_of_ascii c) in
  if ((48 <=? n) && (n <=? 57))%Z then Some (n - 48)%Z else None.

Fixpoint digits (acc : Z) (s : string) : option Z :=
  match s with
  | EmptyString => Some acc
  | String c s' =>
      match digit c with
      | Some d => digits (10 * acc + d)%Z s'
      | None => None
      end
  end.

Fixpoint rstrip (s : string) : string :=
  match s with
  | EmptyString => EmptyString
  | String c s' =>
      match rstrip s' with
      | EmptyString => if Ascii.eqb c newline then EmptyString else String c EmptyString
      | r => String c r
      end
  end.

(** [float] on unsigned integer literals, with the trailing line
    terminator that [readlines] leaves on the last field. *)
Definition float (s : string) : option Z :=
  match rstrip s with
  | EmptyString => None
  | r => digits 0 r
  end.

Definition decode_utf8 (b : list Byte.byte) : option string :=
  Some (string_of_list_byte b).

(** The instance that the constructor builds for the topics [a] and [b]
    when there is no log (lemma [fresh_constructed]). *)
Definition fresh (pl : bool) (mp : Z) : UserData (F:=Z) :=
  mkUserData "log.csv" ["a"; "b"] false pl
    (list_to_map [("a", []); ("b", [])]) None mp
    (list_to_map [("a", ([], [])); ("b", ([], []))]) false false ∅.

(** A file system that refuses no creation. *)
Definition permissive : string -> option refusal := fun _ => None.

Definition world (pl : bool) (mp : Z) : World (F:=Z) :=
  mkWorld (fresh pl mp) ∅ permissive 0 [].

(** A log with one column a topic, and the instance that the constructor
    builds from it for the topic [a] (lemma [loaded_constructed]). *)
Definition wide_log : string :=
  "date,a,b" +:+ nl +:+ "t0,1,7" +:+ nl +:+ "t1,2,8" +:+ nl.

Definition loaded (mp : Z) : UserData (F:=Z) :=
  mkUserData "log.csv" ["a"] false true {["a" := []]} None mp
    {["a" := (["t0"; "t1"], [1%Z; 2%Z])]} false false ∅.

End Sample.

(** * Properties *)

(** Unfolding of the monad's plumbing. *)
Ltac run :=
  repeat progress
    (unfold mbind, M_bind, mret, M_ret, raise, gets, modify, emit,
            when, print, with_lock, try_except, datetime_now,
            path_exists, open_append, writelines;
     cbn [fst snd self files refused clock trace negb default]).

Section Properties.

Context {F : Type}.
Variable float : string -> option F.
Variable now : nat -> string.
Variable decode_utf8 : list Byte.byte -> option string.

Abbreviation World := (@World F).
Abbreviation UserData := (@UserData F).
Abbreviation M := (@M F).

(** ** The class namespace *)

Lemma class_connected :
  class_namespace (F:=F) !! "connected" = Some (mkProperty def_61 (Some def_66)).
Proof. vm_compute. reflexivity. Qed.

Lemma class_last_connected :
  class_namespace (F:=F) !! "last_connected" = Some (mkProperty def_61 None).
Proof. vm_compute. reflexivity. Qed.

Lemma setattr_connected (value : bool) (w : World) :
  setattr "connected" value w =
    (Ok tt, mkWorld (set__last_connected value (self w)) (files w) (refused w) (clock w)
              (trace w ++ [LockAcquire; LockRelease])).
Proof.
  unfold setattr. rewrite class_connected. cbn [fset]. unfold def_66. run.
  by rewrite <- app_assoc.
Qed.

Lemma setattr_last_connected (value : bool) (w : World) :
  setattr "last_connected" value w = (Raise (AttributeError "last_connected"), w).
Proof. unfold setattr. rewrite class_last_connected. reflexivity. Qed.

Lemma getattr_connected (w : World) :
  getattr "connected" w =
    (Ok (_last_connected (self w)),
     mkWorld (self w) (files w) (refused w) (clock w) (trace w ++ [LockAcquire; LockRelease])).
Proof.
  unfold getattr. rewrite class_connected. cbn [fget]. unfold def_61. run.
  by rewrite <- app_assoc.
Qed.

Lemma getattr_last_connected (w : World) :
  getattr "last_connected" w =
    (Ok (_last_connected (self w)),
     mkWorld (self w) (files w) (refused w) (clock w) (trace w ++ [LockAcquire; LockRelease])).
Proof.
  unfold getattr. rewrite class_last_connected. cbn [fget]. unfold def_61. run.
  by rewrite <- app_assoc.
Qed.

(** C10. Whatever the instance, an assignment to [last_connected] raises
    [AttributeError] and changes nothing: the property bound to that
    name has a getter and no setter, the setter function of lines 65-68
    being bound to the name [connected].  An assignment to [connected]
    runs that function: it writes the field [_last_connected] and leaves
    [_connected] as it was. *)
Theorem misbound_setter (w : World) (value : bool) :
  (fset <$> class_namespace (F:=F) !! "last_connected") = Some None /\
  setattr "last_connected" value w = (Raise (AttributeError "last_connected"), w) /\
  exists w' : World,
    setattr "connected" value w = (Ok tt, w') /\
    _last_connected (self w') = value /\
    _connected (self w') = _connected (self w).
Proof.
  split; [by rewrite class_last_connected|].
  split; [apply setattr_last_connected|].
  eexists. split; [apply setattr_connected|]. by destruct w as [[] ? ? ? ?].
Qed.

(** ** Connect acknowledgement *)

Lemma for_each_subscribe (l : list string) (w : World) :
  for_each l (fun topic => emit (Subscribe topic)) w =
    (Ok tt, mkWorld (self w) (files w) (refused w) (clock w) (trace w ++ (Subscribe <$> l))).
Proof.
  revert w. induction l as [|t l IH]; intros w.
  - cbn. rewrite app_nil_r. by destruct w.
  - cbn [for_each]. run. rewrite IH. cbn [self files clock trace fmap list_fmap].
    by rewrite <- app_assoc.
Qed.

(** X16. A connect acknowledgement with a result code other than 0 is
    only printed: no subscription is made and the instance, the files
    and the clock stay as they are. *)
Lemma on_connect_refused (rc : Z) (w : World) :
  rc <> 0%Z ->
  on_connect rc w =
    (Ok tt, mkWorld (self w) (files w) (refused w) (clock w)
              (trace w ++ [Printed ("Connected " +:+ pretty rc)])).
Proof.
  intros Hrc. unfold on_connect. run. by rewrite bool_decide_eq_false_2.
Qed.

(** C1, at result code 0.  The handler subscribes to every configured
    topic, then its assignment to [connected] writes [_last_connected],
    and its assignment to [last_connected] raises [AttributeError]: the
    handler ends by that exception and the field [_connected] keeps the
    value it had. *)
Theorem on_connect_success_raises (w : World) :
  exists w' : World,
    on_connect 0 w = (Raise (AttributeError "last_connected"), w') /\
    trace w' = trace w ++ [Printed ("Connected " +:+ pretty 0%Z)]
                 ++ (Subscribe <$> topics (self w)) ++ [LockAcquire; LockRelease] /\
    _last_connected (self w') = true /\
    _connected (self w') = _connected (self w).
Proof.
  eexists. split.
  - unfold on_connect. run. rewrite bool_decide_eq_true_2 by reflexivity.
    rewrite for_each_subscribe. cbn [self files clock trace].
    rewrite setattr_connected. cbn [self files clock trace].
    rewrite setattr_last_connected. reflexivity.
  - cbn [self trace]. rewrite <- !app_assoc. by destruct w as [[] ? ? ? ?].
Qed.

(** ** The reading store *)

Lemma init_store_keys (fname : string) (tps : list string) (vb pl : bool) (mp : Z)
    (fs : gmap string string) (u : UserData) :
  __init__ float fname tps vb pl mp fs = Ok u -> store_keys_configured u.
Proof.
  intros Hu.
  assert (readings u = list_to_map ((fun t => (t, [])) <$> tps) /\ topics u = tps)
    as [Hr Ht].
  { unfold __init__ in Hu.
    repeat match type of Hu with
           | context [match ?x with _ => _ end] => destruct x
           end; inversion Hu; by subst. }
  intros t. rewrite Hr, Ht.
  rewrite <- elem_of_dom, dom_list_to_map_L, <- list_fmap_compose.
  rewrite elem_of_list_to_set. cbn. by rewrite list_fmap_id.
Qed.

(** C8. On an instance whose store has the configured topics as its
    keys, a call for a topic that is not configured returns normally and
    changes neither the instance (no key added, no list grown) nor any
    file; it only takes and releases the lock. *)
Theorem add_reading_unconfigured (w : World) (topic data : string) :
  store_keys_configured (self w) ->
  topic ∉ topics (self w) ->
  add_reading now topic data w =
    (Ok tt, mkWorld (self w) (files w) (refused w) (clock w) (trace w ++ [LockAcquire; LockRelease])).
Proof.
  intros Hkeys Hnot.
  assert (readings (self w) !! topic = None) as Hnone.
  { apply eq_None_not_Some. intros Hsome. by apply Hnot, Hkeys. }
  unfold add_reading. run. rewrite Hnone. cbn. by rewrite <- app_assoc.
Qed.

(** ** Persistence *)

Lemma append_nil_l (s : string) : "" +:+ s = s.
Proof. reflexivity. Qed.

Lemma append_nil_r (s : string) : s +:+ "" = s.
Proof.
  induction s as [|c s IH]; [reflexivity|].
  change (String c (s +:+ "") = String c s). by rewrite IH.
Qed.

Lemma append_assoc (a b c : string) : (a +:+ b) +:+ c = a +:+ (b +:+ c).
Proof.
  induction a as [|x a IH]; [reflexivity|].
  change (String x ((a +:+ b) +:+ c) = String x (a +:+ (b +:+ c))). by rewrite IH.
Qed.

(** One call whose topic has a last reading [x]: it returns normally,
    prints and writes [persist_events] and leaves the file [persisted]. *)
Lemma write_last_reading_run (w : World) (topic : string) (l : list string) (x : string) :
  readings (self w) !! topic = Some l ->
  last l = Some x ->
  opens w (filename (self w)) ->
  let fname := filename (self w) in
  let line := record_line (now (clock w)) topic x in
  write_last_reading now topic w =
    (Ok tt, mkWorld (self w) (persisted (files w) fname line) (refused w) (S (clock w))
              (trace w ++ persist_events (bool_decide (is_Some (files w !! fname))) fname line)).
Proof.
  intros Hl Hx Hopen fname line. unfold write_last_reading. run.
  rewrite Hl. unfold last_item. rewrite Hx. run.
  fold fname. fold line. unfold persisted, persist_events.
  destruct (files w !! fname) as [c|] eqn:Hf.
  - rewrite bool_decide_eq_true_2 by eauto. run.
    rewrite ?Hf. run. unfold concat_chunks. cbn [fold_right].
    rewrite append_nil_r. by rewrite <- !app_assoc.
  - destruct Hopen as [[c Hc]|Hfree]; [unfold fname in Hf; congruence|]. fold fname in Hfree.
    rewrite bool_decide_eq_false_2 by (by intros [? ?]). run.
    rewrite Hfree. run. rewrite !lookup_insert_eq.
    rewrite !insert_insert_eq. run. unfold concat_chunks. cbn [fold_right].
    rewrite !append_nil_r, append_nil_l. rewrite <- !app_assoc.
    by rewrite append_assoc.
Qed.


Lemma record_lines_cons (u : UserData) (k : nat) (t x : string) (ts : list string) :
  last_reading u t = Some x ->
  record_lines now u k (t :: ts) = record_line (now k) t x :: record_lines now u (S k) ts.
Proof.
  intros Hx. unfold record_lines. cbn [imap]. rewrite Hx, Nat.add_0_r. cbn [default].
  f_equal. apply imap_ext. intros i t' _. cbn. by rewrite Nat.add_succ_r.
Qed.

Lemma last_reading_Some (u : UserData) (t x : string) :
  last_reading u t = Some x ->
  exists l : list string, readings u !! t = Some l /\ last l = Some x.
Proof.
  unfold last_reading. destruct (readings u !! t) as [l|]; [|done]. cbn. eauto.
Qed.

(** A run of calls on a log that exists already: every call appends its
    record line and nothing else. *)
Lemma write_last_reading_appends (ts : list string) (w : World) (c : string) :
  Forall (fun t => is_Some (last_reading (self w) t)) ts ->
  files w !! filename (self w) = Some c ->
  for_each ts (write_last_reading now) w =
    (Ok tt, mkWorld (self w)
              (<[filename (self w) := c +:+ render (record_lines now (self w) (clock w) ts)]>
                 (files w))
              (refused w) (clock w + length ts)
              (trace w ++ write_events (filename (self w))
                            (record_lines now (self w) (clock w) ts))).
Proof.
  revert w c. induction ts as [|t ts IH]; intros w c Hall Hf.
  - cbn. rewrite append_nil_r, app_nil_r, Nat.add_0_r, insert_id by done. by destruct w.
  - apply Forall_cons in Hall as [[x Hlast] Hall].
    destruct (last_reading_Some _ _ _ Hlast) as (l & Hl & Hx).
    cbn [for_each]. unfold mbind at 1, M_bind at 1.
    rewrite (write_last_reading_run w t l x Hl Hx) by (left; rewrite Hf; eauto).
    rewrite bool_decide_eq_true_2 by (rewrite Hf; eauto).
    unfold persisted. rewrite Hf.
    set (w1 := mkWorld _ _ _ _ _).
    assert (files w1 !! filename (self w1) = Some (c +:+ record_line (now (clock w)) t x +:+ nl))
      as Hf1 by apply lookup_insert_eq.
    rewrite (IH w1 _ Hall Hf1). subst w1. cbn [self files refused clock trace].
    rewrite insert_insert_eq, (record_lines_cons _ _ _ x) by done.
    cbn [render fold_right write_events flat_map persist_events length].
    rewrite !append_assoc, <- !app_assoc. do 2 f_equal. lia.
Qed.

(** A run of calls on a log that is not there and can be created: the
    first call writes the header and its record, the others their
    records. *)
Lemma write_last_reading_creates (w : World) (t : string) (ts : list string) :
  files w !! filename (self w) = None ->
  refused w (filename (self w)) = None ->
  Forall (fun t' => is_Some (last_reading (self w) t')) (t :: ts) ->
  let fname := filename (self w) in
  let lines := record_lines now (self w) (clock w) (t :: ts) in
  for_each (t :: ts) (write_last_reading now) w =
    (Ok tt, mkWorld (self w) (<[fname := render (header :: lines)]> (files w)) (refused w)
              (clock w + length (t :: ts)) (trace w ++ write_events fname (header :: lines))).
Proof.
  intros Hf Hfree Hall fname lines. subst fname lines.
  apply Forall_cons in Hall as [[x Hlast] Hall].
  destruct (last_reading_Some _ _ _ Hlast) as (l & Hl & Hx).
  cbn [for_each]. unfold mbind at 1, M_bind at 1.
  rewrite (write_last_reading_run w t l x Hl Hx) by (by right).
  rewrite bool_decide_eq_false_2 by (rewrite Hf; by intros [? ?]).
  unfold persisted. rewrite Hf.
  set (w1 := mkWorld _ _ _ _ _).
  assert (files w1 !! filename (self w1) =
            Some ((header +:+ nl) +:+ record_line (now (clock w)) t x +:+ nl))
    as Hf1 by apply lookup_insert_eq.
  rewrite (write_last_reading_appends ts w1 _ Hall Hf1). subst w1.
  cbn [self files refused clock trace].
  rewrite insert_insert_eq, (record_lines_cons _ _ _ x) by done.
  cbn [render fold_right write_events flat_map persist_events length].
  rewrite !append_assoc, <- !app_assoc. do 2 f_equal. lia.
Qed.

(** ** The order of effects of [add_reading] *)

Lemma plot_reading_nan (topic : string) (w : World) :
  plot_reading topic "nan" w =
    (Ok tt, mkWorld (self w) (files w) (refused w) (clock w) (trace w ++ [PlotCall topic "nan"])).
Proof. unfold plot_reading. run. reflexivity. Qed.

Lemma plot_reading_raises (topic data : string) (w : World) :
  data <> "nan" ->
  exists e : exn,
    plot_reading topic data w =
      (Raise e, mkWorld (self w) (files w) (refused w) (clock w) (trace w ++ [PlotCall topic data])).
Proof.
  intros Hd. unfold plot_reading. run.
  destruct (String.eqb data "nan") eqn:E; [by apply String.eqb_eq in E|].
  run. destruct (plots_falsy (plots (self w))); run; eauto.
Qed.

(** X20. For a topic of the store, when the plot step returns normally
    (plotting off, or the literal [nan]) and the log can be opened, the
    call returns normally and its effects are, in this order and between
    taking and releasing the lock: the append to the store, the verbose
    print if any, the plot step if plotting is on, and last the write of
    the new reading to the log. *)
Theorem add_reading_store_plot_persist (w : World) (topic data : string) (l : list string) :
  readings (self w) !! topic = Some l ->
  plot (self w) = false \/ data = "nan" ->
  opens w (filename (self w)) ->
  let u' := set_readings (<[topic := l ++ [data]]> (readings (self w))) (self w) in
  let fname := filename (self w) in
  let line := record_line (now (clock w)) topic data in
  add_reading now topic data w =
    (Ok tt, mkWorld u' (persisted (files w) fname line) (refused w) (S (clock w))
              (trace w ++ [LockAcquire; StoreAppend topic data]
                 ++ (if verbose (self w) then [Printed (topic +:+ " " +:+ data)] else [])
                 ++ (if plot (self w) then [PlotCall topic data] else [])
                 ++ persist_events (bool_decide (is_Some (files w !! fname))) fname line
                 ++ [LockRelease])).
Proof.
  intros Hl Hplot Hopen u' fname line.
  assert (forall tr0 : list event,
            write_last_reading now topic (mkWorld u' (files w) (refused w) (clock w) tr0) =
              (Ok tt, mkWorld u' (persisted (files w) fname line) (refused w) (S (clock w))
                        (tr0 ++ persist_events (bool_decide (is_Some (files w !! fname)))
                                  fname line))) as Hpersist.
  { intros tr0.
    apply (write_last_reading_run (mkWorld u' (files w) (refused w) (clock w) tr0)
             topic (l ++ [data]) data).
    - cbn. apply lookup_insert_eq.
    - apply last_snoc.
    - exact Hopen. }
  unfold add_reading. run. rewrite Hl. run. cbn [set_readings verbose plot].
  destruct (verbose (self w)); run; cbn [set_readings verbose plot];
    destruct (plot (self w)); run;
    try (destruct Hplot as [Hplot|Hplot]; [discriminate Hplot|subst data]);
    rewrite ?plot_reading_nan; run;
    fold u'; rewrite Hpersist; run;
    rewrite <- !app_assoc; reflexivity.
Qed.

(** X19. With plotting on and a value other than [nan], the plot step
    raises after the append: the call ends by that exception, the lock
    is released, the reading stays in the store, and nothing is written
    to the log. *)
Lemma add_reading_plot_raises (w : World) (topic data : string) (l : list string) :
  readings (self w) !! topic = Some l ->
  plot (self w) = true ->
  data <> "nan" ->
  exists e : exn,
    add_reading now topic data w =
      (Raise e,
       mkWorld (set_readings (<[topic := l ++ [data]]> (readings (self w))) (self w))
         (files w) (refused w) (clock w)
         (trace w ++ [LockAcquire; StoreAppend topic data]
            ++ (if verbose (self w) then [Printed (topic +:+ " " +:+ data)] else [])
            ++ [PlotCall topic data; LockRelease])).
Proof.
  intros Hl Hp Hd.
  assert (forall w0 : World, exists e : exn,
            plot_reading topic data w0 =
              (Raise e, mkWorld (self w0) (files w0) (refused w0) (clock w0)
                          (trace w0 ++ [PlotCall topic data])))
    as Hraise by (intros; by apply plot_reading_raises).
  unfold add_reading. run. rewrite Hl. run. cbn [set_readings verbose plot].
  destruct (verbose (self w)); run; cbn [set_readings verbose plot]; rewrite Hp;
    match goal with
    | |- context [plot_reading topic data ?w0] =>
        destruct (Hraise w0) as [e ->]; exists e
    end; run; rewrite <- !app_assoc; reflexivity.
Qed.

(** Lines 77-83 and the steps before them never replace the instance
    except by the append. *)
Lemma write_last_reading_keeps_self (topic : string) (w : World) :
  self (snd (write_last_reading now topic w)) = self w.
Proof.
  unfold write_last_reading, mbind, M_bind, mret, M_ret, raise, gets, datetime_now,
    path_exists, open_append, when, print, emit, writelines.
  cbn [fst snd self files refused].
  destruct (readings (self w) !! topic) as [l|]; [|done].
  destruct (last_item l); [|done]. cbn [self files refused].
  destruct (files w !! filename (self w)); [by destruct (negb _)|].
  destruct (refused w (filename (self w))); [done|]. by destruct (negb _).
Qed.

Lemma plot_reading_keeps_self (topic data : string) (w : World) :
  self (snd (plot_reading topic data w)) = self w.
Proof.
  unfold plot_reading, mbind, M_bind, mret, M_ret, raise, gets, when, emit.
  cbn [fst snd self]. destruct (String.eqb data "nan"); [done|].
  by destruct (plots_falsy _).
Qed.

Lemma after_append_keeps_self (topic data : string) (w : World) :
  self (snd (after_append now topic data w)) = self w.
Proof.
  unfold after_append. unfold mbind at 1, M_bind at 1. unfold gets at 1. cbn [self].
  assert (forall w0 : World,
            self (snd ((pl ← gets plot; when pl (plot_reading topic data);;
                        write_last_reading now topic) w0)) = self w0) as Hrest.
  { intros w0. unfold mbind at 1, M_bind at 1. unfold gets at 1.
    unfold mbind, M_bind, when.
    destruct (plot (self w0)).
    - pose proof (plot_reading_keeps_self topic data w0) as Hp.
      destruct (plot_reading topic data w0) as [[[]|e] w1]; cbn [snd] in *; [|done].
      by rewrite write_last_reading_keeps_self.
    - unfold mret, M_ret. by rewrite write_last_reading_keeps_self. }
  unfold mbind at 1, M_bind at 1, when, print, emit, mret, M_ret.
  destruct (verbose (self w)); by rewrite Hrest.
Qed.

(** [add_reading] cut at the places where the holder of the lock stands
    between two steps. *)
Lemma add_reading_steps (topic data : string) (w : World) :
  add_reading now topic data w =
    let w1 := snd (emit LockAcquire w) in
    match readings (self w1) !! topic with
    | None => (Ok tt, snd (emit LockRelease w1))
    | Some l =>
        let w2 := snd ((modify (set_readings (<[topic := l ++ [data]]> (readings (self w1))));;
                        emit (StoreAppend topic data)) w1) in
        match after_append now topic data w2 with
        | (r, w3) => (r, snd (emit LockRelease w3))
        end
    end.
Proof.
  unfold add_reading, with_lock. cbn [emit snd self].
  unfold mbind at 1, M_bind at 1, gets at 1. cbn [self].
  by destruct (readings (self w) !! topic).
Qed.

(** The instance after one [add_reading]: the append, if the topic is
    in the store, and nothing else. *)
Lemma add_reading_self (w : World) (topic data : string) :
  self (snd (add_reading now topic data w)) =
    match readings (self w) !! topic with
    | Some l => set_readings (<[topic := l ++ [data]]> (readings (self w))) (self w)
    | None => self w
    end.
Proof.
  rewrite add_reading_steps. cbn zeta. cbn [emit snd self].
  destruct (readings (self w) !! topic) as [l|]; [|done].
  match goal with
  | |- context [after_append now topic data ?w2] =>
      pose proof (after_append_keeps_self topic data w2) as Hself;
      destruct (after_append now topic data w2) as [r w3]
  end.
  cbn [snd self] in *. rewrite Hself. unfold mbind, M_bind, modify, emit. reflexivity.
Qed.

(** ** Connect attempts *)

Lemma connect_attempts_app (tr1 tr2 : list event) :
  connect_attempts (tr1 ++ tr2) = (connect_attempts tr1 + connect_attempts tr2)%nat.
Proof. unfold connect_attempts. by rewrite List.filter_app, length_app. Qed.

Lemma connect_attempts_subscribe (l : list string) :
  connect_attempts (Subscribe <$> l) = 0%nat.
Proof. induction l as [|t l IH]; [done|]. exact IH. Qed.

Lemma quiet_same_trace {A : Type} (m : M A) :
  (forall w : World, trace (snd (m w)) = trace w) -> quiet m.
Proof. intros H w. exists []. by rewrite H, app_nil_r. Qed.

Lemma quiet_ret {A : Type} (a : A) : quiet (F:=F) (mret a).
Proof. by apply quiet_same_trace. Qed.

Lemma quiet_raise {A : Type} (e : exn) : quiet (F:=F) (raise (A:=A) e).
Proof. by apply quiet_same_trace. Qed.

Lemma quiet_gets {A : Type} (f : UserData -> A) : quiet (gets f).
Proof. by apply quiet_same_trace. Qed.

Lemma quiet_modify (f : UserData -> UserData) : quiet (modify f).
Proof. by apply quiet_same_trace. Qed.

Lemma quiet_emit (e : event) : is_connect e = false -> quiet (F:=F) (emit e).
Proof.
  intros He w. exists [e]. split; [done|]. unfold connect_attempts. cbn. by rewrite He.
Qed.

Lemma quiet_bind {A B : Type} (m : M A) (f : A -> M B) :
  quiet m -> (forall a : A, quiet (f a)) -> quiet (m ≫= f).
Proof.
  intros Hm Hf w. destruct (Hm w) as (tr1 & E1 & Q1).
  unfold mbind, M_bind. destruct (m w) as [[a|e] w1]; cbn [snd] in *.
  - destruct (Hf a w1) as (tr2 & E2 & Q2). exists (tr1 ++ tr2).
    rewrite E2, E1, app_assoc, connect_attempts_app, Q1, Q2. done.
  - by exists tr1.
Qed.

Lemma quiet_when (b : bool) (m : M unit) : quiet m -> quiet (when b m).
Proof. destruct b; [done|]. intros _. apply quiet_ret. Qed.

Lemma quiet_try_except {A : Type} (m : M A) (h : exn -> M A) :
  quiet m -> (forall e : exn, quiet (h e)) -> quiet (try_except m h).
Proof.
  intros Hm Hh w. destruct (Hm w) as (tr1 & E1 & Q1).
  unfold try_except. destruct (m w) as [[a|e] w1]; cbn [snd] in *.
  - by exists tr1.
  - destruct (Hh e w1) as (tr2 & E2 & Q2). exists (tr1 ++ tr2).
    rewrite E2, E1, app_assoc, connect_attempts_app, Q1, Q2. done.
Qed.

Lemma quiet_with_lock {A : Type} (body : M A) : quiet body -> quiet (with_lock body).
Proof.
  intros Hb w. unfold with_lock. run.
  set (w1 := mkWorld _ _ _ _ _). destruct (Hb w1) as (tr & E & Q).
  destruct (body w1) as [r w2]; cbn [snd trace] in *.
  exists ([LockAcquire] ++ tr ++ [LockRelease]).
  rewrite E. subst w1. cbn [trace]. rewrite <- !app_assoc. split; [done|].
  rewrite !connect_attempts_app, Q. done.
Qed.

Lemma quiet_for_each {A : Type} (l : list A) (body : A -> M unit) :
  (forall a : A, quiet (body a)) -> quiet (for_each l body).
Proof.
  intros Hb. induction l as [|a l IH]; [apply quiet_ret|].
  cbn [for_each]. apply quiet_bind; [apply Hb|]. intros _. exact IH.
Qed.

Lemma quiet_writelines (path : string) (chunks : list string) :
  quiet (F:=F) (writelines path chunks).
Proof. intros w. exists [FileWrite path chunks]. done. Qed.

Lemma open_append_trace (path : string) (w : World) :
  trace (snd (open_append path w)) = trace w.
Proof.
  unfold open_append. destruct (files w !! path); [done|]. by destruct (refused w path).
Qed.

Lemma quiet_open_append (path : string) : quiet (F:=F) (open_append path).
Proof. apply quiet_same_trace. apply open_append_trace. Qed.

(** One step of a structural proof of [quiet]. *)
Ltac quiet_step :=
  first
    [ apply quiet_ret | apply quiet_raise | apply quiet_gets | apply quiet_modify
    | apply quiet_writelines | apply quiet_open_append
    | apply quiet_emit; reflexivity
    | apply quiet_bind; [|intros ?]
    | apply quiet_when
    | apply quiet_with_lock
    | apply quiet_try_except; [|intros ?]
    | apply quiet_for_each; intros ?
    | apply quiet_same_trace; intros ?; reflexivity
    | match goal with
      | |- quiet (match ?x with _ => _ end) => destruct x
      end ].

Lemma quiet_write_last_reading (topic : string) : quiet (F:=F) (write_last_reading now topic).
Proof. unfold write_last_reading, print. repeat quiet_step. Qed.

Lemma quiet_plot_reading (topic data : string) : quiet (F:=F) (plot_reading topic data).
Proof. unfold plot_reading. repeat quiet_step. Qed.

Lemma quiet_add_reading (topic data : string) : quiet (F:=F) (add_reading now topic data).
Proof.
  unfold add_reading, print.
  repeat first [ apply quiet_write_last_reading | apply quiet_plot_reading | quiet_step ].
Qed.

Lemma quiet_on_message (msg : message) : quiet (F:=F) (on_message now decode_utf8 msg).
Proof.
  unfold on_message, print. repeat first [ apply quiet_add_reading | quiet_step ].
Qed.

Lemma quiet_setattr_connected (value : bool) : quiet (F:=F) (setattr "connected" value).
Proof. intros w. rewrite setattr_connected. by exists [LockAcquire; LockRelease]. Qed.

Lemma quiet_setattr_last_connected (value : bool) :
  quiet (F:=F) (setattr "last_connected" value).
Proof. apply quiet_same_trace. intros w. by rewrite setattr_last_connected. Qed.

Lemma quiet_on_disconnect (rc : Z) : quiet (F:=F) (on_disconnect rc).
Proof. unfold on_disconnect, print. repeat first [ apply quiet_setattr_connected | quiet_step ]. Qed.

Lemma quiet_on_connect (rc : Z) : quiet (F:=F) (on_connect rc).
Proof.
  unfold on_connect, print.
  repeat first [ apply quiet_setattr_connected | apply quiet_setattr_last_connected
               | quiet_step ].
Qed.

Lemma quiet_client_loop (suppress_exceptions : bool) (pending : option net_event) :
  quiet (F:=F) (client_loop now decode_utf8 suppress_exceptions pending).
Proof.
  unfold client_loop, deliver.
  destruct pending as [[rc|rc|msg]|], suppress_exceptions;
    repeat first [ apply quiet_on_connect | apply quiet_on_disconnect
                 | apply quiet_on_message | quiet_step ].
Qed.

(** The check of lines 172-174 reads the same field twice: [connected]
    and [last_connected] share the getter of lines 61-63, so the
    condition [not connected and last_connected] never holds. *)
Lemma reconnect_check_never_fires (url : string) (port : Z) (w : World) :
  reconnect_check url port w =
    (Ok tt, mkWorld (self w) (files w) (refused w) (clock w)
              (trace w ++ [LockAcquire; LockRelease]
                 ++ (if _last_connected (self w) then [] else [LockAcquire; LockRelease]))).
Proof.
  unfold reconnect_check. unfold mbind at 1, M_bind at 1. rewrite getattr_connected.
  destruct (_last_connected (self w)) eqn:Hl; cbn [negb].
  - run. by rewrite app_nil_r.
  - unfold mbind at 1, M_bind at 1. rewrite getattr_last_connected. cbn [self].
    rewrite Hl. run. by rewrite <- app_assoc.
Qed.

Lemma quiet_reconnect_check (url : string) (port : Z) : quiet (F:=F) (reconnect_check url port).
Proof.
  intros w. rewrite reconnect_check_never_fires. eexists. split; [reflexivity|].
  by destruct (_last_connected (self w)).
Qed.

(** Whatever the transport delivers and however it treats exceptions of
    callbacks, the poll loop adds no connect attempt to the trace. *)
Lemma poll_never_reconnects (suppress_exceptions : bool) (url : string) (port : Z)
    (schedule : list (option net_event)) :
  quiet (F:=F) (poll now decode_utf8 suppress_exceptions url port schedule).
Proof.
  induction schedule as [|pending rest IH]; [apply quiet_ret|].
  cbn [poll]. apply quiet_bind; [apply quiet_client_loop|]. intros _.
  apply quiet_bind; [apply quiet_reconnect_check|]. intros _. exact IH.
Qed.

(** ** The sliding window *)

Lemma slice_last_suffix {A : Type} (n : Z) (l : list A) : slice_last n l `suffix_of` l.
Proof. apply suffix_drop. Qed.

Lemma slice_last_length {A : Type} (n : Z) (l : list A) :
  (0 < n)%Z -> (Z.of_nat (length (slice_last n l)) <= n)%Z.
Proof.
  intros Hn. unfold slice_last, slice_from.
  destruct (Z.ltb_spec (- n) 0) as [_|?]; [|lia]. rewrite length_drop. lia.
Qed.

Lemma slice_last_fits {A : Type} (n : Z) (l : list A) :
  (0 < n)%Z -> (Z.of_nat (length l) <= n)%Z -> slice_last n l = l.
Proof.
  intros Hn Hl. unfold slice_last, slice_from.
  destruct (Z.ltb_spec (- n) 0) as [_|?]; [|lia].
  by replace (Z.to_nat _) with 0%nat by lia.
Qed.

(** On a full window the appended entry pushes out the oldest one. *)
Lemma slice_last_evicts_oldest {A : Type} (n : Z) (l : list A) (x : A) :
  (0 < n)%Z -> Z.of_nat (length l) = n -> slice_last n (l ++ [x]) = drop 1 l ++ [x].
Proof.
  intros Hn Hl. unfold slice_last, slice_from.
  destruct (Z.ltb_spec (- n) 0) as [_|?]; [|lia].
  rewrite length_app. cbn [length].
  replace (Z.to_nat _) with 1%nat by lia.
  rewrite drop_app_le; [done|]. lia.
Qed.

Lemma load_row_bounded (tps : list string) (n : Z) (x : string)
    (cols : list (string * string)) (dp dp' : gmap string series) :
  (0 < n)%Z ->
  window_bounded n dp ->
  load_row float tps n x cols dp = Ok dp' ->
  window_bounded n dp'.
Proof.
  intros Hn. revert dp. induction cols as [|[topic val] cols IH]; intros dp Hb Hrun.
  - cbn in Hrun. by injection Hrun as <-.
  - cbn [load_row] in Hrun. case_bool_decide; [|by eapply IH].
    destruct (dp !! topic) as [[xs ys]|]; [|done].
    destruct (float val) as [y|]; [|done]. cbn [neg] in Hrun.
    eapply IH; [|exact Hrun].
    apply map_Forall_insert_2; [|done]. cbn [fst snd].
    split; by apply slice_last_length.
Qed.

Lemma load_lines_bounded (tps : list string) (n : Z) (lines : list string) (i : nat)
    (hdr : list string) (dp dp' : gmap string series) :
  (0 < n)%Z ->
  window_bounded n dp ->
  load_lines float tps n i hdr lines dp = Ok dp' ->
  window_bounded n dp'.
Proof.
  intros Hn. revert i hdr dp. induction lines as [|line lines IH]; intros i hdr dp Hb Hrun.
  - cbn in Hrun. by injection Hrun as <-.
  - cbn [load_lines] in Hrun. destruct (i =? 0)%nat; [by eapply IH|].
    destruct (load_row _ _ _ _ _ _) as [dp1|] eqn:Hrow; [|done].
    eapply IH; [|exact Hrun]. by eapply load_row_bounded.
Qed.

(** X17. For a positive window size, no series of a constructed instance
    is longer than the window, however long the log is. *)
Lemma init_window_bounded (fname : string) (tps : list string) (vb pl : bool) (mp : Z)
    (fs : gmap string string) (u : UserData) :
  (0 < mp)%Z ->
  __init__ float fname tps vb pl mp fs = Ok u ->
  window_bounded mp (default_plot u).
Proof.
  intros Hn Hu.
  assert (window_bounded mp
            (list_to_map ((fun t => (t, (([], []) : series (F:=F)))) <$> tps))) as H0.
  { intros t s Hs. apply elem_of_list_to_map_2, list_elem_of_fmap in Hs as (t' & [= -> ->] & _).
    cbn. lia. }
  unfold __init__ in Hu. destruct (fs !! fname) as [content|]; [destruct pl|].
  - destruct (load_lines _ _ _ _ _ _ _) as [dp|] eqn:Hload; [|done].
    injection Hu as <-. cbn. by eapply load_lines_bounded.
  - by injection Hu as <-.
  - by injection Hu as <-.
Qed.

(** X18. The loader does not skip a field that [float] rejects: in a
    column of a configured topic such a field ends the load by
    [ValueError], whatever follows in the row. *)
Lemma load_row_value_error (tps : list string) (n : Z) (x topic val : string)
    (rest : list (string * string)) (dp : gmap string series) (s : series) :
  topic ∈ tps ->
  dp !! topic = Some s ->
  float val = None ->
  load_row float tps n x ((topic, val) :: rest) dp = Raise (ValueError val).
Proof.
  intros Hin Hs Hval. cbn [load_row]. rewrite bool_decide_eq_true_2 by done.
  unfold series in *. rewrite Hs. destruct s. by rewrite Hval.
Qed.

End Properties.

(** The instance of C8 at the sample store and the topic [c]. *)
Lemma add_reading_unconfigured_witness :
  store_keys_configured (Sample.fresh false 3) /\
  ("c" ∉ topics (Sample.fresh false 3)) /\
  add_reading Sample.now "c" "21" (Sample.world false 3) =
    (Ok tt, mkWorld (Sample.fresh false 3) ∅ Sample.permissive 0 [LockAcquire; LockRelease]).
Proof.
  assert (store_keys_configured (Sample.fresh false 3)) as Hkeys.
  { intros t. cbn [Sample.fresh readings topics].
    rewrite <- elem_of_dom, dom_list_to_map_L, elem_of_list_to_set. reflexivity. }
  assert ("c" ∉ topics (Sample.fresh false 3)) as Hnot.
  { apply (bool_decide_unpack _). vm_compute. exact I. }
  split; [exact Hkeys|]. split; [exact Hnot|].
  exact (add_reading_unconfigured Sample.now (Sample.world false 3) "c" "21" Hkeys Hnot).
Defined.

(** The instance of X20 at the sample store, plotting on, for the
    literal [nan]. *)
Lemma add_reading_store_plot_persist_witness :
  readings (Sample.fresh true 3) !! "a" = Some [] /\
  (plot (Sample.fresh true 3) = false \/ "nan" = "nan") /\
  opens (Sample.world true 3) "log.csv" /\
  effects (add_reading Sample.now "a" "nan") (Sample.world true 3) =
    [LockAcquire; StoreAppend "a" "nan"; PlotCall "a" "nan";
     Printed header; FileWrite "log.csv" [header; nl];
     Printed "t0,a,nan"; FileWrite "log.csv" ["t0,a,nan"; nl]; LockRelease].
Proof.
  assert (opens (Sample.world true 3) "log.csv") as Hopen by (by right).
  split; [vm_compute; reflexivity|]. split; [by right|]. split; [exact Hopen|].
  unfold effects.
  rewrite (add_reading_store_plot_persist Sample.now (Sample.world true 3) "a" "nan" []);
    [vm_compute; reflexivity | vm_compute; reflexivity | by right | exact Hopen].
Defined.

(** ** Concrete runs *)

Lemma fresh_constructed (pl : bool) (mp : Z) :
  __init__ Sample.float "log.csv" ["a"; "b"] false pl mp ∅ = Ok (Sample.fresh pl mp).
Proof. reflexivity. Qed.

(** C2, at the scenario of a successful connect acknowledgement followed
    by a disconnect.  Whether the transport lets the exception of the
    connect handler through (the loop then ends by it) or suppresses it,
    the only connect attempt of the run is the one [main] makes before
    the loop: the poll loop issues none. *)
Theorem reconnect_scenario_issues_no_connect (suppress_exceptions : bool) :
  let run := main Sample.float Sample.now Sample.decode_utf8 "broker" 1883 ["a"] "log.csv"
               false 3 suppress_exceptions
               [Some (ConnAck 0); None; Some (Disconnected 7); None; None] ∅
               Sample.permissive in
  fst run = (if suppress_exceptions then Ok tt else Raise (AttributeError "last_connected")) /\
  List.filter is_connect (from_option trace [] (snd run)) = [Connect "broker" 1883] /\
  from_option (fun w => _connected (self w)) true (snd run) = false /\
  from_option (fun w => _last_connected (self w)) false (snd run) = negb suppress_exceptions.
Proof. destruct suppress_exceptions; vm_compute; repeat split. Qed.

(** C4, at a log in the three-column schema with one record of the
    configured topic.  The loader pairs the header's columns [topic] and
    [data] with the row's fields, finds neither among the configured
    topics, and loads nothing: the series of the topic stays empty,
    whatever [float] is.  In a log whose header names the topic (in a
    column that is not the last: the last one keeps its line terminator),
    a field that [float] rejects ends the construction by [ValueError]. *)
Theorem three_column_log_not_loaded {F : Type} (float : string -> option F) :
  __init__ float "log.csv" ["stationA/temp"] false true 3
    {["log.csv" := "date,topic,data" +:+ nl +:+
                   "2020-01-01 00:00:00,stationA/temp,21.5" +:+ nl]} =
    Ok (mkUserData "log.csv" ["stationA/temp"] false true {["stationA/temp" := []]} None 3
          {["stationA/temp" := ([], [])]} false false ∅) /\
  __init__ Sample.float "log.csv" ["a"] false true 3
    {["log.csv" := "date,a,b" +:+ nl +:+ "t0,abc,7" +:+ nl +:+ "t1,2,8" +:+ nl]} =
    Raise (ValueError "abc").
Proof. split; vm_compute; reflexivity. Qed.

(** C5, at the value [abc] in active mode.  The value is no number and
    is not the literal [nan]: the plot step does not skip it but raises
    at its read of [self.stations]; [add_reading] ends by that
    exception, which the handler catches and prints, and the reading,
    though in the store, is never written to the log.  The literal
    [nan] is skipped and written. *)
Theorem non_numeric_value_raises :
  let u := Sample.fresh true 3 in
  let w := mkWorld u ∅ Sample.permissive 0 [] in
  let msg := mkMessage "a" (list_byte_of_string "abc") in
  __init__ Sample.float "log.csv" ["a"; "b"] false true 3 ∅ = Ok u /\
  Sample.decode_utf8 (msg_payload msg) = Some "abc" /\
  Sample.float "abc" = None /\
  plot_reading "a" "abc" w =
    (Raise (AttributeError "stations"),
     mkWorld u ∅ Sample.permissive 0 [PlotCall "a" "abc"]) /\
  on_message Sample.now Sample.decode_utf8 msg w =
    (Ok tt,
     mkWorld (set_readings (<["a" := ["abc"]]> (readings u)) u) ∅ Sample.permissive 0
       [LockAcquire; StoreAppend "a" "abc"; PlotCall "a" "abc"; LockRelease;
        ExceptionPrinted (AttributeError "stations")]) /\
  on_message Sample.now Sample.decode_utf8 (mkMessage "a" (list_byte_of_string "nan")) w =
    (Ok tt,
     mkWorld (set_readings (<["a" := ["nan"]]> (readings u)) u)
       {["log.csv" := render [header; "t0,a,nan"]]} Sample.permissive 1
       [LockAcquire; StoreAppend "a" "nan"; PlotCall "a" "nan";
        Printed header; FileWrite "log.csv" [header; nl];
        Printed "t0,a,nan"; FileWrite "log.csv" ["t0,a,nan"; nl]; LockRelease]).
Proof. repeat split; vm_compute; reflexivity. Qed.

(** C7, at the command line.  Whatever argument the option [-n] is
    given, it reaches the instance as a string: the first row of the
    sample log that has a field for the configured topic is appended and
    the trim that follows raises [TypeError], which ends the
    construction.  Without the option the window is the integer 120 and
    the log is loaded. *)
Theorem option_window_raises (arg : string) :
  __init__ Sample.float "log.csv" ["a"] false true (max_plot_option (Some arg))
    {["log.csv" := Sample.wide_log]} =
    Raise (TypeError "bad operand type for unary -: 'str'") /\
  __init__ Sample.float "log.csv" ["a"] false true (max_plot_option None)
    {["log.csv" := Sample.wide_log]} = Ok (Sample.loaded 120).
Proof. split; vm_compute; reflexivity. Qed.

(** * Properties of concurrent delivery *)

Section DeliveryProperties.

Context {F : Type}.
Variable now : nat -> string.

Abbreviation World := (@World F).
Abbreviation M := (@M F).
Abbreviation prog := (@prog F).
Abbreviation thread := (@thread F).
Abbreviation system := (@system F).

Lemma values_for_app (topic : string) (cs1 cs2 : list call) :
  values_for topic (cs1 ++ cs2) = values_for topic cs1 ++ values_for topic cs2.
Proof. unfold values_for. by rewrite List.filter_app, fmap_app. Qed.

Lemma values_for_one (topic topic' data : string) :
  values_for topic [(topic', data)] = if bool_decide (topic' = topic) then [data] else [].
Proof. unfold values_for. cbn. by case_bool_decide. Qed.

Lemma calls_of_app (i : nat) (cs1 cs2 : list (nat * call)) :
  calls_of i (cs1 ++ cs2) = calls_of i cs1 ++ calls_of i cs2.
Proof. unfold calls_of. by rewrite List.filter_app, fmap_app. Qed.

Lemma calls_of_one (i j : nat) (c : call) :
  calls_of i [(j, c)] = if bool_decide (j = i) then [c] else [].
Proof. unfold calls_of. cbn. by case_bool_decide. Qed.

(** ** A program run by one thread is the function of the embedding *)

Lemma M_bind_ext {A B : Type} (m m' : M A) (f f' : A -> M B) :
  (forall w : World, m w = m' w) ->
  (forall (a : A) (w : World), f a w = f' a w) ->
  forall w : World, (m ≫= f) w = (m' ≫= f') w.
Proof.
  intros Hm Hf w. unfold mbind, M_bind. rewrite Hm.
  destruct (m' w) as [[a|e] w1]; [apply Hf|done].
Qed.

Lemma run_seq_bind {A B : Type} (p : prog A) (f : A -> prog B) (w : World) :
  run_seq (p_bind p f) w = (run_seq p ≫= fun a => run_seq (f a)) w.
Proof.
  revert w. induction p as [a|e|X op k IH|k IH|k IH]; intros w; cbn [p_bind run_seq];
    try reflexivity; try apply IH.
  unfold mbind, M_bind in *. destruct (op w) as [r w1]. apply IH.
Qed.

Lemma run_seq_mbind {A B : Type} (p : prog A) (f : A -> prog B) (w : World) :
  run_seq (@mbind _ (@prog_bind F) A B f p) w = (run_seq p ≫= fun a => run_seq (f a)) w.
Proof. apply run_seq_bind. Qed.

Lemma run_seq_lift {X : Type} (m : M X) (w : World) : run_seq (lift m) w = m w.
Proof. unfold lift. cbn [run_seq]. by destruct (m w) as [[x|e] w1]. Qed.

Lemma run_seq_when (b : bool) (p : prog unit) (w : World) :
  run_seq (p_when b p) w = when b (run_seq p) w.
Proof. by destruct b. Qed.

Lemma run_seq_try {A : Type} (p : prog A) (h : exn -> prog A) (w : World) :
  run_seq (p_try p h) w = try_except (run_seq p) (fun e => run_seq (h e)) w.
Proof.
  revert w. induction p as [a|e|X op k IH|k IH|k IH]; intros w; cbn [p_try run_seq];
    try reflexivity; try apply IH.
  unfold try_except in *. destruct (op w) as [r w1]. apply IH.
Qed.

Lemma run_seq_finally {A : Type} (p : prog A) (w : World) :
  run_seq (p_finally_release p) w =
    let (r, w2) := run_seq p w in (r, snd (emit LockRelease w2)).
Proof.
  revert w. induction p as [a|e|X op k IH|k IH|k IH]; intros w;
    cbn [p_finally_release run_seq]; try reflexivity; try apply IH.
  destruct (op w) as [r w1]. apply IH.
Qed.

Lemma run_seq_with_lock {A : Type} (p : prog A) (w : World) :
  run_seq (p_with_lock p) w = with_lock (run_seq p) w.
Proof.
  unfold p_with_lock, with_lock. cbn [run_seq]. rewrite run_seq_finally.
  unfold emit. cbn [snd]. by destruct (run_seq p _).
Qed.

(** One step of the comparison of a program with its function. *)
Ltac tie :=
  first
    [ reflexivity
    | apply run_seq_lift
    | rewrite run_seq_mbind; apply M_bind_ext; [|intros ? ?]
    | rewrite run_seq_when; match goal with
                            | |- when ?b _ _ = when ?b _ _ => destruct b; cbn [when]
                            end
    | match goal with
      | |- run_seq (match ?x with _ => _ end) _ = _ => destruct x
      | |- run_seq (if ?x then _ else _) _ = _ => destruct x
      | |- forall w : World, _ => intros ?
      end ].

Lemma run_seq_plot_reading (topic data : string) (w : World) :
  run_seq (plot_reading_prog topic data) w = plot_reading topic data w.
Proof.
  unfold plot_reading_prog, plot_reading. revert w. repeat tie.
Qed.

Lemma run_seq_write_last_reading (topic : string) (w : World) :
  run_seq (write_last_reading_prog now topic) w = write_last_reading now topic w.
Proof.
  unfold write_last_reading_prog, write_last_reading. revert w.
  repeat tie.
Qed.

Lemma with_lock_ext {A : Type} (m m' : M A) (w : World) :
  (forall w1 : World, m w1 = m' w1) -> with_lock m w = with_lock m' w.
Proof. intros Hm. unfold with_lock, emit. by rewrite Hm. Qed.

(** Run by one thread, the program of [add_reading] is [add_reading]. *)
Lemma run_seq_add_reading (topic data : string) (w : World) :
  run_seq (add_reading_prog now topic data) w = add_reading now topic data w.
Proof.
  unfold add_reading_prog, add_reading. rewrite run_seq_with_lock.
  apply with_lock_ext. intros w1.
  rewrite run_seq_mbind. apply M_bind_ext; [apply run_seq_lift|]. intros rd w2.
  unfold add_reading_rest. destruct (rd !! topic) as [l|]; [|reflexivity].
  unfold add_reading_tail. revert w2.
  repeat first [ apply run_seq_plot_reading | apply run_seq_write_last_reading | tie ].
Qed.

(** Run by one thread, the handler of a decoded message is lines
    145-148 of [on_message]. *)
Lemma run_seq_handle (c : call) (w : World) :
  run_seq (handle_prog now c) w =
    try_except (add_reading now (fst c) (snd c)) (fun e => emit (ExceptionPrinted e)) w.
Proof.
  unfold handle_prog. rewrite run_seq_try. unfold try_except.
  rewrite run_seq_add_reading.
  destruct (add_reading now (fst c) (snd c) w) as [[[]|e] w1]; [done|apply run_seq_lift].
Qed.

(** ** What the steps keep *)

Lemma keeps_store_emit (e : event) : keeps_store (F:=F) (emit e).
Proof. done. Qed.

Lemma keeps_store_gets {A : Type} (f : UserData -> A) : keeps_store (F:=F) (gets f).
Proof. done. Qed.

Lemma keeps_store_open_append (path : string) : keeps_store (F:=F) (open_append path).
Proof.
  intros w. unfold open_append. destruct (files w !! path); [done|].
  by destruct (refused w path).
Qed.

Lemma keeps_lift {X : Type} (m : M X) : keeps_store m -> keeps (lift m).
Proof. intros Hm. apply keeps_step; [done|]. intros w. destruct (fst (m w)); constructor. Qed.

Lemma keeps_bind {A B : Type} (p : prog A) (f : A -> prog B) :
  keeps p -> (forall a : A, keeps (f a)) -> keeps (p_bind p f).
Proof.
  intros Hp Hf. induction Hp as [a|e|X op k Hop _ IH]; cbn [p_bind];
    [apply Hf|constructor|]. apply keeps_step; [done|]. intros w. apply IH.
Qed.

Lemma keeps_mbind {A B : Type} (p : prog A) (f : A -> prog B) :
  keeps p -> (forall a : A, keeps (f a)) -> keeps (@mbind _ (@prog_bind F) A B f p).
Proof. apply keeps_bind. Qed.

Lemma keeps_when (b : bool) (p : prog unit) : keeps p -> keeps (p_when b p).
Proof. destruct b; [done|]. intros _. constructor. Qed.

(** One step of a structural proof of [keeps]. *)
Ltac keeps_tac :=
  first
    [ apply keeps_ret | apply keeps_throw
    | apply keeps_lift; first [ apply keeps_store_open_append | intros ?; reflexivity ]
    | apply keeps_mbind; [|intros ?]
    | apply keeps_when
    | match goal with
      | |- keeps (match ?x with _ => _ end) => destruct x
      | |- keeps (if ?x then _ else _) => destruct x
      end ].

Lemma keeps_plot_reading (topic data : string) :
  keeps (F:=F) (plot_reading_prog topic data).
Proof. unfold plot_reading_prog. repeat keeps_tac. Qed.

Lemma keeps_write_last_reading (topic : string) :
  keeps (F:=F) (write_last_reading_prog now topic).
Proof. unfold write_last_reading_prog, print. repeat keeps_tac. Qed.

Lemma keeps_add_reading_tail (topic data : string) :
  keeps (F:=F) (add_reading_tail now topic data).
Proof.
  unfold add_reading_tail, print.
  repeat first [ apply keeps_plot_reading | apply keeps_write_last_reading | keeps_tac ].
Qed.

Lemma outside_print_exception (e : exn) : outside (print_exception (F:=F) e).
Proof. apply outside_step; [done|]. intros w. constructor. Qed.

(** A body that leaves the store as it is, run under the handler: the
    lock is released on every exit of the body, and what follows is
    outside. *)
Lemma closing_try_finally (body : prog unit) :
  keeps body -> closing (p_try (p_finally_release body) print_exception).
Proof.
  induction 1 as [a|e|X op k Hop _ IH]; cbn [p_finally_release p_try].
  - apply closing_release. constructor.
  - apply closing_release. apply outside_print_exception.
  - apply closing_step; [done|]. intros w. apply IH.
Qed.

(** ** The invariant *)

Lemma store_is_frame (w0 : World) (extra : list call) (s s' : system) :
  readings (self (world s')) = readings (self (world s)) ->
  completed s' = completed s ->
  store_is w0 extra s -> store_is w0 extra s'.
Proof. intros Hr Hc Hs topic. rewrite Hr, Hc. apply Hs. Qed.

(** A call for a topic that is not in the store adds nothing to it. *)
Lemma store_is_absent (w0 : World) (c : call) (s : system) :
  readings (self (world s)) !! fst c = None ->
  store_is w0 [] s -> store_is w0 [c] s.
Proof.
  intros Hnone Hs topic. specialize (Hs topic). rewrite app_nil_r in Hs.
  rewrite Hs. destruct c as [t d]. cbn [fst] in Hnone.
  rewrite values_for_app, values_for_one. case_bool_decide as Ht; [|by rewrite app_nil_r].
  subst t. rewrite Hs in Hnone. by destruct (readings (self w0) !! topic).
Qed.

(** The write of line 75, made on the store as it is. *)
Lemma store_is_append (w0 : World) (c : call) (l : list string) (s s' : system) :
  readings (self (world s)) !! fst c = Some l ->
  readings (self (world s')) = <[fst c := l ++ [snd c]]> (readings (self (world s))) ->
  completed s' = completed s ->
  store_is w0 [] s -> store_is w0 [c] s'.
Proof.
  intros Hl Hr Hc Hs topic. rewrite Hr, Hc. destruct c as [t d]. cbn [fst snd] in *.
  pose proof (Hs topic) as Ht. rewrite app_nil_r in Ht.
  rewrite values_for_app, values_for_one. case_bool_decide as Heq.
  - subst t. rewrite lookup_insert_eq. rewrite Hl in Ht.
    destruct (readings (self w0) !! topic) as [l0|]; [|done].
    cbn in *. injection Ht as ->. by rewrite app_assoc.
  - rewrite lookup_insert_ne by done. by rewrite Ht, app_nil_r.
Qed.

Lemma store_is_release (w0 : World) (c : call) (i : nat) (s s' : system) :
  readings (self (world s')) = readings (self (world s)) ->
  completed s' = completed s ++ [(i, c)] ->
  store_is w0 [c] s -> store_is w0 [] s'.
Proof.
  intros Hr Hc Hs topic. rewrite Hr, Hc, fmap_app, app_nil_r. apply Hs.
Qed.

(** What holds of a thread depends on the lock, on the history and on
    the store only. *)
Lemma thread_ok_frame (w0 : World) (s s' : system) (j : nat) (q0 : list call) (th : thread) :
  readings (self (world s')) = readings (self (world s)) ->
  completed s' = completed s ->
  holder s' = holder s ->
  thread_ok now w0 s j q0 th -> thread_ok now w0 s' j q0 th.
Proof.
  intros Hr Hc Hh. unfold thread_ok, inside. rewrite Hr, Hc, Hh.
  destruct (running th) as [[c p]|]; [|done].
  intros [?|[?|(? & Hin & ?)]]; [by left|by right; left|right; right].
  split; [done|]. split; [|done].
  destruct Hin as [[? ?]|[(? & ? & ?)|[? ?]]];
    [left|right; left|right; right]; repeat split; try done;
    by apply (store_is_frame w0 _ s s').
Qed.

(** A thread that does not hold the lock is not concerned by what the
    holder does to the store. *)
Lemma thread_ok_other (w0 : World) (s s' : system) (j : nat) (q0 : list call) (th : thread) :
  holder s <> Some j ->
  holder s' <> Some j ->
  calls_of j (completed s') = calls_of j (completed s) ->
  thread_ok now w0 s j q0 th -> thread_ok now w0 s' j q0 th.
Proof.
  intros Hh Hh' Hc. unfold thread_ok. rewrite Hc.
  destruct (running th) as [[c p]|]; [|by intros [_ ?]].
  intros [(_ & ? & ?)|[(_ & ? & ?)|(? & _)]]; [by left|by right; left|done].
Qed.

Lemma consistent_initial (w : World) (qs : list (list call)) :
  consistent now w qs (initial w qs).
Proof.
  split; cbn [initial threads holder world completed].
  - by rewrite length_fmap.
  - intros i th Hth. rewrite list_lookup_fmap in Hth.
    destruct (qs !! i) as [q|]; [|done]. injection Hth as <-.
    exists q. split; [done|]. by split.
  - intros _ topic. cbn. destruct (readings (self w) !! topic); cbn; [by rewrite app_nil_r|done].
  - done.
  - constructor.
Qed.

(** A state that differs from a consistent one by thread [i]. *)
Lemma consistent_update (w0 : World) (qs0 : list (list call)) (s s' : system) (i : nat)
    (th th' : thread) (q0 : list call) :
  consistent now w0 qs0 s ->
  threads s !! i = Some th ->
  qs0 !! i = Some q0 ->
  threads s' = <[i := th']> (threads s) ->
  thread_ok now w0 s' i q0 th' ->
  (forall (j : nat) (q : list call) (th_j : thread),
     j <> i -> threads s !! j = Some th_j ->
     thread_ok now w0 s j q th_j -> thread_ok now w0 s' j q th_j) ->
  (holder s' = None -> store_is w0 [] s') ->
  (holder s' = holder s \/ holder s' = Some i \/ holder s' = None) ->
  (completed s' = completed s \/ exists c : call, completed s' = completed s ++ [(i, c)]) ->
  consistent now w0 qs0 s'.
Proof.
  intros Hc Hth Hq0 Hths Hi Hothers Hfree Hholder Hdone.
  assert (i < length (threads s))%nat as Hlt by (by eapply lookup_lt_Some).
  split.
  - rewrite Hths, length_insert. apply (cons_threads _ _ _ _ Hc).
  - intros j th_j Hj. rewrite Hths in Hj. destruct (decide (j = i)) as [->|Hne].
    + rewrite list_lookup_insert_eq in Hj by done. injection Hj as <-. by exists q0.
    + rewrite list_lookup_insert_ne in Hj by done.
      destruct (cons_thread _ _ _ _ Hc j th_j Hj) as (q & Hq & Hok).
      exists q. split; [done|]. by apply Hothers.
  - exact Hfree.
  - intros j Hj. rewrite Hths. apply lookup_lt_is_Some. rewrite length_insert.
    destruct Hholder as [Heq|[Heq|Heq]]; rewrite Heq in Hj.
    + by apply lookup_lt_is_Some, (cons_holder _ _ _ _ Hc).
    + by injection Hj as <-.
    + done.
  - destruct Hdone as [->|[c ->]]; [apply (cons_ids _ _ _ _ Hc)|].
    apply Forall_app. split; [apply (cons_ids _ _ _ _ Hc)|].
    apply Forall_singleton. cbn. rewrite <- (cons_threads _ _ _ _ Hc). exact Hlt.
Qed.

Lemma consistent_step (w0 : World) (qs0 : list (list call)) (s s' : system) (i : nat) :
  consistent now w0 qs0 s -> step now i s = Some s' -> consistent now w0 qs0 s'.
Proof.
  intros Hc Hstep. unfold step in Hstep.
  destruct (threads s !! i) as [th|] eqn:Hth; [|done].
  destruct (cons_thread _ _ _ _ Hc i th Hth) as (q0 & Hq0 & Hok).
  unfold thread_ok in Hok.
  destruct (running th) as [[c p]|] eqn:Hrun.
  - destruct Hok as [(Hnh & -> & Hcalls)|[(Hnh & Hout & Hcalls)|(Hh & Hin & Hcalls)]].
    + (* waiting for the lock *)
      change (handle_prog now c) with (Acquire (F:=F) (entered_prog now c)) in Hstep.
      destruct (holder s) as [k|] eqn:Hh; [done|]. injection Hstep as <-.
      eapply (consistent_update w0 qs0 s _ i th _ q0 Hc Hth Hq0); cbn [threads holder completed].
      * reflexivity.
      * unfold thread_ok. cbn [running holder completed queue]. right; right.
        split; [done|]. split; [|done]. left. split; [done|].
        apply (store_is_frame w0 [] s); [done|done|]. by apply (cons_free _ _ _ _ Hc).
      * intros j q th_j Hne _ Hj. apply (thread_ok_other w0 s); cbn [holder completed];
          congruence.
      * done.
      * by right; left.
      * by left.
    + (* outside the lock *)
      destruct Hout as [a|X op k Hop Hk].
      * injection Hstep as <-.
        eapply (consistent_update w0 qs0 s _ i th _ q0 Hc Hth Hq0);
          cbn [threads holder completed].
        -- reflexivity.
        -- unfold thread_ok. cbn [running holder completed queue]. by split.
        -- intros j q th_j _ _ Hj. by apply (thread_ok_frame w0 s).
        -- apply (cons_free _ _ _ _ Hc).
        -- by left.
        -- by left.
      * pose proof (Hop (world s)) as Hkeep. pose proof (Hk (world s)) as Hnext.
        destruct (op (world s)) as [r w'] eqn:Hrun_op. cbn [fst snd] in *.
        injection Hstep as <-.
        eapply (consistent_update w0 qs0 s _ i th _ q0 Hc Hth Hq0);
          cbn [threads holder completed].
        -- reflexivity.
        -- unfold thread_ok. cbn [running holder completed queue]. right; left. by split.
        -- intros j q th_j _ _ Hj. by apply (thread_ok_frame w0 s).
        -- intros Hfree. apply (store_is_frame w0 [] s); [done|done|].
           by apply (cons_free _ _ _ _ Hc).
        -- by left.
        -- by left.
    + (* holding the lock *)
      destruct Hin as [(-> & Hst)|[([l Hl] & -> & Hst)|(Hcl & Hst)]].
      * (* line 72 *)
        unfold entered_prog in Hstep.
        cbn [mbind prog_bind p_bind lift p_finally_release p_try gets] in Hstep.
        injection Hstep as <-.
        eapply (consistent_update w0 qs0 s _ i th _ q0 Hc Hth Hq0);
          cbn [threads holder completed].
        -- reflexivity.
        -- unfold thread_ok. cbn [running holder completed queue]. right; right.
           split; [done|]. split; [|done]. unfold inside. cbn [world].
           destruct (readings (self (world s)) !! fst c) as [l|] eqn:Hl.
           ++ right; left. split; [by eauto|]. split; [reflexivity|].
              by apply (store_is_frame w0 [] s).
           ++ right; right. split.
              ** change (closing (F:=F) (loaded_prog now c (readings (self (world s))))).
                 unfold loaded_prog, add_reading_rest. rewrite Hl.
                 cbn [p_finally_release p_try]. apply closing_release. constructor.
              ** apply (store_is_frame w0 [c] s); [done|done|]. by apply store_is_absent.
        -- intros j q th_j _ _ Hj. by apply (thread_ok_frame w0 s).
        -- intros Hfree. congruence.
        -- by left.
        -- by left.
      * (* line 75 *)
        unfold loaded_prog, add_reading_rest in Hstep. rewrite Hl in Hstep.
        cbn [mbind prog_bind p_bind lift p_finally_release p_try modify] in Hstep.
        injection Hstep as <-.
        eapply (consistent_update w0 qs0 s _ i th _ q0 Hc Hth Hq0);
          cbn [threads holder completed].
        -- reflexivity.
        -- unfold thread_ok. cbn [running holder completed queue]. right; right.
           split; [done|]. split; [|done]. right; right. split.
           ++ apply (closing_try_finally (add_reading_tail now (fst c) (snd c))).
              apply keeps_add_reading_tail.
           ++ by apply (store_is_append w0 c l s).
        -- intros j q th_j Hne _ Hj. apply (thread_ok_other w0 s); cbn [holder completed];
             congruence.
        -- intros Hfree. congruence.
        -- by left.
        -- by left.
      * (* past line 75 *)
        destruct Hcl as [k Hout|X op k Hop Hk].
        -- rewrite Hh in Hstep. injection Hstep as <-.
           eapply (consistent_update w0 qs0 s _ i th _ q0 Hc Hth Hq0);
             cbn [threads holder completed].
           ++ reflexivity.
           ++ unfold thread_ok. cbn [running holder completed queue]. right; left.
              split; [done|]. split; [done|].
              rewrite calls_of_app, calls_of_one, bool_decide_eq_true_2 by done.
              by rewrite <- app_assoc.
           ++ intros j q th_j Hne _ Hj. apply (thread_ok_other w0 s); cbn [holder completed];
                [congruence|done| |exact Hj].
              rewrite calls_of_app, calls_of_one, bool_decide_eq_false_2 by done.
              by rewrite app_nil_r.
           ++ intros _. by apply (store_is_release w0 c i s).
           ++ by right; right.
           ++ right. by exists c.
        -- pose proof (Hop (world s)) as Hkeep. pose proof (Hk (world s)) as Hnext.
           destruct (op (world s)) as [r w'] eqn:Hrun_op. cbn [fst snd] in *.
           injection Hstep as <-.
           eapply (consistent_update w0 qs0 s _ i th _ q0 Hc Hth Hq0);
             cbn [threads holder completed].
           ++ reflexivity.
           ++ unfold thread_ok. cbn [running holder completed queue]. right; right.
              split; [done|]. split; [|done]. right; right. split; [done|].
              by apply (store_is_frame w0 [c] s).
           ++ intros j q th_j _ _ Hj. by apply (thread_ok_frame w0 s).
           ++ intros Hfree. congruence.
           ++ by left.
           ++ by left.
  - (* in no call *)
    destruct Hok as [Hnh Hcalls]. destruct (queue th) as [|c q] eqn:Hq; [done|].
    injection Hstep as <-.
    eapply (consistent_update w0 qs0 s _ i th _ q0 Hc Hth Hq0); cbn [threads holder completed].
    + reflexivity.
    + unfold thread_ok. cbn [running holder completed queue]. by left.
    + intros j q' th_j _ _ Hj. by apply (thread_ok_frame w0 s).
    + apply (cons_free _ _ _ _ Hc).
    + by left.
    + by left.
Qed.

Lemma consistent_run (w0 : World) (qs0 : list (list call)) (schedule : list nat)
    (s s' : system) :
  consistent now w0 qs0 s -> run now schedule s = Some s' -> consistent now w0 qs0 s'.
Proof.
  revert s. induction schedule as [|i schedule IH]; intros s Hc Hrun.
  - by injection Hrun as <-.
  - cbn [run] in Hrun. destruct (step now i s) as [s1|] eqn:Hstep; [|done].
    eapply IH; [|exact Hrun]. by eapply consistent_step.
Qed.

(** ** The stored sequence *)

Lemma sum_list_insert {A : Type} (f : A -> nat) (l : list A) (i : nat) (a b : A) :
  l !! i = Some a ->
  (sum_list (f <$> <[i := b]> l) + f a)%nat = (sum_list (f <$> l) + f b)%nat.
Proof.
  revert i. induction l as [|x l IH]; intros [|i] Hi; try done.
  - injection Hi as ->. csimpl. lia.
  - csimpl in *. specialize (IH i Hi). lia.
Qed.

(** Calls that are, thread by thread, the calls of the queues are as
    many as the calls of the queues. *)
Lemma calls_for_partition (topic : string) (cs : list (nat * call)) (qs : list (list call)) :
  (forall (i : nat) (q : list call), qs !! i = Some q -> calls_of i cs = q) ->
  Forall (fun ic => (fst ic < length qs)%nat) cs ->
  length (values_for topic (snd <$> cs)) = calls_for topic qs.
Proof.
  revert qs. induction cs as [|[j c] cs IH] using rev_ind; intros qs Hqs Hids.
  - clear Hids. unfold calls_for. cbn. induction qs as [|q qs IHqs]; [done|].
    rewrite <- (Hqs 0%nat q eq_refl). cbn. apply IHqs.
    intros i q' Hi. apply (Hqs (S i) q' Hi).
  - apply Forall_app in Hids as [Hids Hj]. apply Forall_inv in Hj. cbn [fst] in Hj.
    destruct (lookup_lt_is_Some_2 qs j Hj) as [q Hq].
    pose proof (Hqs j q Hq) as Hcalls.
    rewrite calls_of_app, calls_of_one, bool_decide_eq_true_2 in Hcalls by done.
    rewrite fmap_app, values_for_app, length_app.
    rewrite (IH (<[j := calls_of j cs]> qs)).
    + pose proof (sum_list_insert (fun q0 => length (values_for topic q0)) qs j q
                    (calls_of j cs) Hq) as Hsum.
      unfold calls_for. rewrite <- Hcalls in Hsum at 1.
      rewrite values_for_app, length_app in Hsum. cbn [fmap list_fmap snd]. lia.
    + intros i q' Hi. destruct (decide (i = j)) as [->|Hne].
      * rewrite list_lookup_insert_eq in Hi by done. by injection Hi as <-.
      * rewrite list_lookup_insert_ne in Hi by done. pose proof (Hqs i q' Hi) as Hi'.
        rewrite calls_of_app, calls_of_one, bool_decide_eq_false_2 in Hi' by done.
        by rewrite app_nil_r in Hi'.
    + by rewrite length_insert.
Qed.

(** The store after the handlers of [cs] were run one after the other. *)
Lemma serial_store (cs : list call) (w : World) (topic : string) :
  readings (self (snd (serial now cs w))) !! topic =
    (fun l0 => l0 ++ values_for topic cs) <$> (readings (self w) !! topic).
Proof.
  revert w. induction cs as [|[t d] cs IH]; intros w.
  - cbn. destruct (readings (self w) !! topic); cbn; [by rewrite app_nil_r|done].
  - unfold serial in *. cbn [for_each fst snd]. unfold mbind at 1, M_bind at 1, try_except.
    pose proof (add_reading_self now w t d) as Hself.
    destruct (add_reading now t d w) as [[[]|e] w1]; cbn [snd emit] in *;
      rewrite IH; cbn [self]; rewrite Hself;
      change ((t, d) :: cs) with ([(t, d)] ++ cs); rewrite values_for_app, values_for_one;
      (destruct (readings (self w) !! t) as [l|] eqn:Hl; cbn [set_readings readings];
       [ case_bool_decide as Ht;
         [ subst t; rewrite lookup_insert_eq, Hl; cbn; by rewrite <- app_assoc
         | rewrite lookup_insert_ne by done; by destruct (readings (self w) !! topic) ]
       | case_bool_decide as Ht; [subst t; by rewrite Hl|];
         by destruct (readings (self w) !! topic) ]).
Qed.

(** C9. Threads that each handle a sequence of decoded messages, their
    steps interleaved in any order, run to the end.  What each thread
    runs for a call is, when run alone, lines 145-148 of [on_message]
    around [add_reading].  The calls have left the lock in an order that
    keeps each thread's own order; the store is the one that the calls
    leave when they are made one after the other in that order; for
    every topic of the store the stored sequence is what was there
    before followed by the values of the calls for that topic in that
    order; and the number of values appended is the number of calls for
    the topic, none lost and none twice. *)
Theorem concurrent_appends_serialised (w : World) (qs : list (list call))
    (schedule : list nat) (s : system) :
  run now schedule (initial w qs) = Some s ->
  finished s ->
  (forall (c : call) (w1 : World),
     run_seq (handle_prog now c) w1 =
       try_except (add_reading now (fst c) (snd c)) (fun e => emit (ExceptionPrinted e)) w1) /\
  (forall (i : nat) (q : list call), qs !! i = Some q -> calls_of i (completed s) = q) /\
  (forall topic : string,
     readings (self (world s)) !! topic =
       readings (self (snd (serial now (snd <$> completed s) w))) !! topic) /\
  (forall (topic : string) (l0 : list string),
     readings (self w) !! topic = Some l0 ->
     readings (self (world s)) !! topic
       = Some (l0 ++ values_for topic (snd <$> completed s)) /\
     length (values_for topic (snd <$> completed s)) = calls_for topic qs).
Proof.
  intros Hrun [Hfree Hdone].
  pose proof (consistent_run w qs schedule _ s (consistent_initial w qs) Hrun) as Hc.
  assert (forall (i : nat) (q : list call), qs !! i = Some q -> calls_of i (completed s) = q)
    as Hcalls.
  { intros i q Hq.
    destruct (lookup_lt_is_Some_2 (threads s) i) as [th Hth].
    { rewrite (cons_threads _ _ _ _ Hc). by eapply lookup_lt_Some. }
    destruct (cons_thread _ _ _ _ Hc i th Hth) as (q0 & Hq0 & Hok).
    destruct (Forall_lookup_1 _ _ _ _ Hdone Hth) as [Hqueue Hrunning].
    unfold thread_ok in Hok. rewrite Hrunning, Hqueue, app_nil_r in Hok.
    destruct Hok as [_ ->]. congruence. }
  pose proof (cons_free _ _ _ _ Hc Hfree) as Hstore.
  split; [apply run_seq_handle|]. split; [exact Hcalls|]. split.
  - intros topic. rewrite serial_store, (Hstore topic). by rewrite app_nil_r.
  - intros topic l0 Hl0. split.
    + rewrite (Hstore topic), Hl0. cbn. by rewrite app_nil_r.
    + apply calls_for_partition; [exact Hcalls|apply (cons_ids _ _ _ _ Hc)].
Qed.

(** ** No deadlock *)

Lemma run_app (l1 l2 : list nat) (s : system) :
  run now (l1 ++ l2) s = run now l1 s ≫= run now l2.
Proof.
  revert s. induction l1 as [|i l1 IH]; intros s; [done|].
  cbn [app run]. destruct (step now i s) as [s1|]; [apply IH|done].
Qed.

(** A thread that has left the lock returns from its call in steps of
    its own. *)
Lemma outside_returns (p : prog unit) :
  outside p ->
  forall (s : system) (i : nat) (th : thread) (c : call),
    threads s !! i = Some th ->
    running th = Some (c, p) ->
    exists (n : nat) (s' : system),
      run now (replicate n i) s = Some s' /\
      threads s' = <[i := mkThread (queue th) None]> (threads s) /\
      holder s' = holder s.
Proof.
  induction 1 as [a|X op k Hop Hk IH]; intros s i th c Hth Hrun.
  - exists 1%nat. eexists. cbn [replicate run]. unfold step. rewrite Hth, Hrun.
    split; [reflexivity|]. by split.
  - assert (i < length (threads s))%nat as Hlt by (by eapply lookup_lt_Some).
    destruct (op (world s)) as [r w'] eqn:Hrun_op.
    set (th1 := mkThread (queue th) (Some (c, k r))).
    set (s1 := mkSystem w' (holder s) (<[i := th1]> (threads s)) (completed s)).
    destruct (IH (world s) s1 i th1 c) as (n & s' & Hn & Hths & Hh).
    + cbn [threads s1]. by rewrite list_lookup_insert_eq.
    + cbn [running th1]. by rewrite Hrun_op.
    + exists (S n), s'. cbn [replicate run]. unfold step. rewrite Hth, Hrun, Hrun_op.
      fold th1. fold s1. split; [exact Hn|]. split; [|exact Hh].
      rewrite Hths. cbn [threads s1 queue th1]. by rewrite list_insert_insert_eq.
Qed.

(** The holder of the lock that is past line 75 releases the lock and
    returns from its call in steps of its own. *)
Lemma closing_returns (p : prog unit) :
  closing p ->
  forall (s : system) (i : nat) (th : thread) (c : call),
    threads s !! i = Some th ->
    running th = Some (c, p) ->
    is_Some (holder s) ->
    exists (n : nat) (s' : system),
      run now (replicate n i) s = Some s' /\
      threads s' = <[i := mkThread (queue th) None]> (threads s) /\
      holder s' = None.
Proof.
  induction 1 as [k Hout|X op k Hop Hk IH]; intros s i th c Hth Hrun [j Hj];
    assert (i < length (threads s))%nat as Hlt by (by eapply lookup_lt_Some).
  - set (th1 := mkThread (queue th) (Some (c, k (Ok tt)))).
    set (s1 := mkSystem (snd (emit LockRelease (world s))) None (<[i := th1]> (threads s))
                 (completed s ++ [(i, c)])).
    destruct (outside_returns _ Hout s1 i th1 c) as (n & s' & Hn & Hths & Hh).
    + cbn [threads s1]. by rewrite list_lookup_insert_eq.
    + reflexivity.
    + exists (S n), s'. cbn [replicate run]. unfold step. rewrite Hth, Hrun, Hj.
      fold th1. fold s1. split; [exact Hn|]. split; [|exact Hh].
      rewrite Hths. cbn [threads s1 queue th1]. by rewrite list_insert_insert_eq.
  - destruct (op (world s)) as [r w'] eqn:Hrun_op.
    set (th1 := mkThread (queue th) (Some (c, k r))).
    set (s1 := mkSystem w' (holder s) (<[i := th1]> (threads s)) (completed s)).
    destruct (IH (world s) s1 i th1 c) as (n & s' & Hn & Hths & Hh).
    + cbn [threads s1]. by rewrite list_lookup_insert_eq.
    + cbn [running th1]. by rewrite Hrun_op.
    + cbn [holder s1]. eauto.
    + exists (S n), s'. cbn [replicate run]. unfold step. rewrite Hth, Hrun, Hrun_op.
      fold th1. fold s1. split; [exact Hn|]. split; [|exact Hh].
      rewrite Hths. cbn [threads s1 queue th1]. by rewrite list_insert_insert_eq.
Qed.

Lemma loaded_returns (s : system) (i : nat) (th : thread) (c : call)
    (rd : gmap string (list string)) :
  threads s !! i = Some th ->
  running th = Some (c, loaded_prog now c rd) ->
  is_Some (holder s) ->
  exists (n : nat) (s' : system),
    run now (replicate n i) s = Some s' /\
    threads s' = <[i := mkThread (queue th) None]> (threads s) /\
    holder s' = None.
Proof.
  intros Hth Hrun Hh.
  assert (i < length (threads s))%nat as Hlt by (by eapply lookup_lt_Some).
  destruct (rd !! fst c) as [l|] eqn:Hl.
  - set (p1 := p_try (p_finally_release (add_reading_tail now (fst c) (snd c)))
                 (print_exception (F:=F))).
    set (th1 := mkThread (F:=F) (queue th) (Some (c, p1))).
    set (s1 := mkSystem
                 (snd (modify (set_readings (<[fst c := l ++ [snd c]]> rd)) (world s)))
                 (holder s) (<[i := th1]> (threads s)) (completed s)).
    destruct (closing_returns p1 (closing_try_finally _ (keeps_add_reading_tail _ _))
                s1 i th1 c) as (n & s' & Hn & Hths & Hh').
    + cbn [threads s1]. by rewrite list_lookup_insert_eq.
    + reflexivity.
    + exact Hh.
    + exists (S n), s'. cbn [replicate run]. unfold step. rewrite Hth, Hrun.
      unfold loaded_prog, add_reading_rest. rewrite Hl.
      cbn [mbind prog_bind p_bind lift p_finally_release p_try modify].
      fold p1. fold th1. split; [exact Hn|]. split; [|exact Hh'].
      rewrite Hths. cbn [threads s1 queue th1]. by rewrite list_insert_insert_eq.
  - refine (closing_returns (loaded_prog now c rd) _ s i th c Hth Hrun Hh).
    unfold loaded_prog, add_reading_rest. rewrite Hl.
    cbn [p_finally_release p_try]. apply closing_release. constructor.
Qed.

Lemma entered_returns (s : system) (i : nat) (th : thread) (c : call) :
  threads s !! i = Some th ->
  running th = Some (c, entered_prog now c) ->
  is_Some (holder s) ->
  exists (n : nat) (s' : system),
    run now (replicate n i) s = Some s' /\
    threads s' = <[i := mkThread (queue th) None]> (threads s) /\
    holder s' = None.
Proof.
  intros Hth Hrun Hh.
  assert (i < length (threads s))%nat as Hlt by (by eapply lookup_lt_Some).
  set (th1 := mkThread (F:=F) (queue th) (Some (c, loaded_prog now c (readings (self (world s)))))).
  set (s1 := mkSystem (world s) (holder s) (<[i := th1]> (threads s)) (completed s)).
  destruct (loaded_returns s1 i th1 c (readings (self (world s))))
    as (n & s' & Hn & Hths & Hh').
  - cbn [threads s1]. by rewrite list_lookup_insert_eq.
  - reflexivity.
  - exact Hh.
  - exists (S n), s'. cbn [replicate run]. unfold step. rewrite Hth, Hrun.
    unfold entered_prog. cbn [mbind prog_bind p_bind lift p_finally_release p_try gets].
    split; [exact Hn|]. split; [|exact Hh'].
    rewrite Hths. cbn [threads s1 queue th1]. by rewrite list_insert_insert_eq.
Qed.

(** With the lock free, a thread that waits for it takes it, makes its
    call and returns, in steps of its own. *)
Lemma waiting_returns (s : system) (i : nat) (th : thread) (c : call) :
  threads s !! i = Some th ->
  running th = Some (c, handle_prog now c) ->
  holder s = None ->
  exists (n : nat) (s' : system),
    run now (replicate n i) s = Some s' /\
    threads s' = <[i := mkThread (queue th) None]> (threads s) /\
    holder s' = None.
Proof.
  intros Hth Hrun Hh.
  assert (i < length (threads s))%nat as Hlt by (by eapply lookup_lt_Some).
  set (th1 := mkThread (F:=F) (queue th) (Some (c, entered_prog now c))).
  set (s1 := mkSystem (snd (emit LockAcquire (world s))) (Some i) (<[i := th1]> (threads s))
               (completed s)).
  destruct (entered_returns s1 i th1 c) as (n & s' & Hn & Hths & Hh').
  - cbn [threads s1]. by rewrite list_lookup_insert_eq.
  - reflexivity.
  - cbn [holder s1]. eauto.
  - exists (S n), s'. cbn [replicate run]. unfold step. rewrite Hth, Hrun.
    change (handle_prog now c) with (Acquire (F:=F) (entered_prog now c)). rewrite Hh.
    split; [exact Hn|]. split; [|exact Hh'].
    rewrite Hths. cbn [threads s1 queue th1]. by rewrite list_insert_insert_eq.
Qed.

Lemma idle_returns (s : system) (i : nat) (th : thread) (c : call) (q : list call) :
  threads s !! i = Some th ->
  running th = None ->
  queue th = c :: q ->
  holder s = None ->
  exists (n : nat) (s' : system),
    run now (replicate n i) s = Some s' /\
    threads s' = <[i := mkThread q None]> (threads s) /\
    holder s' = None.
Proof.
  intros Hth Hrun Hq Hh.
  assert (i < length (threads s))%nat as Hlt by (by eapply lookup_lt_Some).
  set (th1 := mkThread (F:=F) q (Some (c, handle_prog now c))).
  set (s1 := mkSystem (world s) (holder s) (<[i := th1]> (threads s)) (completed s)).
  destruct (waiting_returns s1 i th1 c) as (n & s' & Hn & Hths & Hh').
  - cbn [threads s1]. by rewrite list_lookup_insert_eq.
  - reflexivity.
  - exact Hh.
  - exists (S n), s'. cbn [replicate run]. unfold step. rewrite Hth, Hrun, Hq.
    split; [exact Hn|]. split; [|exact Hh'].
    rewrite Hths. cbn [threads s1 queue th1]. by rewrite list_insert_insert_eq.
Qed.

(** ** No deadlock *)

Lemma backlog_returned (s s' : system) (i : nat) (th : thread) (q : list call) :
  threads s !! i = Some th ->
  threads s' = <[i := mkThread q None]> (threads s) ->
  (length q < pending th)%nat ->
  (backlog s' < backlog s)%nat.
Proof.
  intros Hth Hths Hlt. unfold backlog. rewrite Hths.
  pose proof (sum_list_insert pending (threads s) i th (mkThread q None) Hth) as Hsum.
  unfold pending at 4 in Hsum. cbn [queue running] in Hsum. lia.
Qed.

Lemma finished_or_busy (s : system) :
  holder s = None ->
  finished s \/ exists (i : nat) (th : thread), threads s !! i = Some th /\ (0 < pending th)%nat.
Proof.
  intros Hh. unfold finished.
  assert (Forall (fun th : thread => queue th = [] /\ running th = None) (threads s) \/
          exists (i : nat) (th : thread), threads s !! i = Some th /\ (0 < pending th)%nat)
    as [Hall|Hbusy]; [|by left|by right].
  induction (threads s) as [|th ths IH]; [by left|].
  destruct (running th) as [cp|] eqn:Hrun.
  { right. exists 0%nat, th. split; [done|]. unfold pending. rewrite Hrun. lia. }
  destruct (queue th) as [|c q] eqn:Hq.
  - destruct IH as [Hall|(i & th' & Hth' & Hp)].
    + left. by constructor.
    + right. by exists (S i), th'.
  - right. exists 0%nat, th. split; [done|]. unfold pending. rewrite Hq. cbn [length]. lia.
Qed.

(** A state of a run is finished, or some thread can make steps that
    leave less to do. *)
Lemma consistent_progress (w0 : World) (qs0 : list (list call)) (s : system) :
  consistent now w0 qs0 s ->
  finished s \/
  exists (schedule : list nat) (s' : system),
    run now schedule s = Some s' /\ (backlog s' < backlog s)%nat.
Proof.
  intros Hc. destruct (holder s) as [i|] eqn:Hh.
  - right. destruct (cons_holder _ _ _ _ Hc i Hh) as [th Hth].
    destruct (cons_thread _ _ _ _ Hc i th Hth) as (q0 & _ & Hok).
    unfold thread_ok in Hok. destruct (running th) as [[c p]|] eqn:Hrun.
    + assert (exists (n : nat) (s' : system),
                run now (replicate n i) s = Some s' /\
                threads s' = <[i := mkThread (queue th) None]> (threads s) /\
                holder s' = None) as (n & s' & Hn & Hths & _).
      { destruct Hok as [[Hne _]|[[Hne _]|(_ & Hin & _)]]; [by rewrite Hh in Hne..|].
        destruct Hin as [[-> _]|[(_ & -> & _)|[Hcl _]]].
        - eapply entered_returns; [exact Hth|exact Hrun|by rewrite Hh].
        - eapply loaded_returns; [exact Hth|exact Hrun|by rewrite Hh].
        - eapply closing_returns; [exact Hcl|exact Hth|exact Hrun|by rewrite Hh]. }
      exists (replicate n i), s'. split; [exact Hn|].
      eapply backlog_returned; [exact Hth|exact Hths|]. unfold pending. rewrite Hrun. lia.
    + destruct Hok as [Hne _]. by rewrite Hh in Hne.
  - destruct (finished_or_busy s Hh) as [Hfin|(i & th & Hth & Hp)]; [by left|right].
    destruct (cons_thread _ _ _ _ Hc i th Hth) as (q0 & _ & Hok).
    unfold thread_ok in Hok. destruct (running th) as [[c p]|] eqn:Hrun.
    + assert (exists (n : nat) (s' : system),
                run now (replicate n i) s = Some s' /\
                threads s' = <[i := mkThread (queue th) None]> (threads s))
        as (n & s' & Hn & Hths).
      { destruct Hok as [(_ & -> & _)|[(_ & Hout & _)|(Hi & _)]]; [| |by rewrite Hh in Hi].
        - destruct (waiting_returns s i th c Hth Hrun Hh) as (n & s' & Hn & Hths & _). eauto.
        - destruct (outside_returns p Hout s i th c Hth Hrun) as (n & s' & Hn & Hths & _). eauto. }
      exists (replicate n i), s'. split; [exact Hn|].
      eapply backlog_returned; [exact Hth|exact Hths|]. unfold pending. rewrite Hrun. lia.
    + destruct (queue th) as [|c q] eqn:Hq.
      { unfold pending in Hp. rewrite Hrun, Hq in Hp. cbn [length] in Hp. lia. }
      destruct (idle_returns s i th c q Hth Hrun Hq Hh) as (n & s' & Hn & Hths & _).
      exists (replicate n i), s'. split; [exact Hn|].
      eapply backlog_returned; [exact Hth|exact Hths|]. unfold pending. rewrite Hq.
      cbn [length]. lia.
Qed.

Lemma consistent_can_finish (w0 : World) (qs0 : list (list call)) (n : nat) :
  forall s : system,
    consistent now w0 qs0 s ->
    (backlog s < n)%nat ->
    exists (rest : list nat) (s' : system), run now rest s = Some s' /\ finished s'.
Proof.
  induction n as [|n IH]; intros s Hc Hn; [lia|].
  destruct (consistent_progress w0 qs0 s Hc) as [Hfin|(l1 & s1 & Hrun1 & Hless)].
  - by exists [], s.
  - destruct (IH s1) as (l2 & s2 & Hrun2 & Hfin).
    + by eapply consistent_run.
    + lia.
    + exists (l1 ++ l2), s2. split; [|exact Hfin]. rewrite run_app, Hrun1. exact Hrun2.
Qed.

(** X24 (no deadlock).  Whatever the threads have done so far, the
    calls can all be completed: from every state that a schedule reaches
    from the start, some further schedule makes every thread take the
    lock for each call it has left, return from it, and leaves the lock
    free.  No thread is ever left waiting for a lock that is not
    released: the [with] of line 71 releases the lock also when
    [plot_reading] or [write_last_reading] raise, and the handler of
    lines 147-148 catches what they raise. *)
Theorem every_run_can_finish (w : World) (qs : list (list call)) (schedule : list nat)
    (s : system) :
  run now schedule (initial w qs) = Some s ->
  exists (rest : list nat) (s' : system), run now rest s = Some s' /\ finished s'.
Proof.
  intros Hrun. apply (consistent_can_finish w qs (S (backlog s))); [|lia].
  eapply consistent_run; [apply consistent_initial|exact Hrun].
Qed.

Lemma on_message_run_seq (decode_utf8 : list Byte.byte -> option string) (msg : message)
    (data : string) (w : World) :
  decode_utf8 (msg_payload msg) = Some data ->
  on_message now decode_utf8 msg w = run_seq (handle_prog now (msg_topic msg, data)) w.
Proof. intros Hd. rewrite run_seq_handle. unfold on_message. by rewrite Hd. Qed.

End DeliveryProperties.

(** The instance of C9 for two threads on the sample store, plotting on:
    thread 0 handles [1] then [nan] for topic [a], thread 1 handles [x]
    for [a] then [y] for the unconfigured [c].  Thread 1 starts its
    first call while thread 0 holds the lock, and takes the lock as soon
    as thread 0 has released it, before thread 0 prints the exception it
    has caught. *)
Lemma concurrent_appends_serialised_witness :
  let qs := [[("a", "1"); ("a", "nan")]; [("a", "x"); ("c", "y")]] in
  let schedule := ([0; 0; 0; 1] ++ replicate 7 0 ++ replicate 9 1
                     ++ replicate 21 0 ++ replicate 7 1)%nat in
  exists s : system (F:=Z),
    run Sample.now schedule (initial (Sample.world true 3) qs) = Some s /\
    finished s /\
    completed s = [(0%nat, ("a", "1")); (1%nat, ("a", "x")); (0%nat, ("a", "nan"));
                   (1%nat, ("c", "y"))] /\
    readings (self (world s)) !! "a" = Some ["1"; "x"; "nan"] /\
    calls_for "a" qs = 3%nat.
Proof.
  intros qs schedule.
  destruct (run Sample.now schedule (initial (Sample.world true 3) qs)) as [s|] eqn:Hrun;
    [|by vm_compute in Hrun].
  assert (finished s) as Hfin.
  { vm_compute in Hrun. injection Hrun as <-. split; [done|]. by repeat constructor. }
  exists s. split; [done|]. split; [exact Hfin|].
  destruct (concurrent_appends_serialised Sample.now (Sample.world true 3) qs schedule s
              Hrun Hfin) as (_ & _ & _ & Hstore).
  destruct (Hstore "a" [] eq_refl) as [Ha Hcount]. rewrite Ha.
  vm_compute in Hrun. injection Hrun as <-. repeat split; vm_compute; reflexivity.
Defined.

(** The instance of X24 on the same threads, stopped where thread 0
    holds the lock, in its first call, and thread 1 waits for it. *)
Lemma every_run_can_finish_witness :
  let qs := [[("a", "1"); ("a", "nan")]; [("a", "x"); ("c", "y")]] in
  exists s : system (F:=Z),
    run Sample.now [0; 0; 0; 1]%nat (initial (Sample.world true 3) qs) = Some s /\
    holder s = Some 0%nat /\
    exists (rest : list nat) (s' : system), run Sample.now rest s = Some s' /\ finished s'.
Proof.
  intros qs.
  destruct (run Sample.now [0; 0; 0; 1]%nat (initial (Sample.world true 3) qs)) as [s|] eqn:Hrun;
    [|by vm_compute in Hrun].
  exists s. split; [done|]. split.
  - vm_compute in Hrun. by injection Hrun as <-.
  - exact (every_run_can_finish Sample.now (Sample.world true 3) qs [0; 0; 0; 1]%nat s Hrun).
Defined.

(** * Further properties: construction and the history load *)

Section Construction.

Context {F : Type}.
Variable float : string -> option F.

(** The dictionary [{topic: v for topic in tps}]. *)
Lemma lookup_comprehension {V : Type} (v : V) (tps : list string) (t : string) :
  (list_to_map ((fun t' => (t', v)) <$> tps) : gmap string V) !! t =
    if decide (t ∈ tps) then Some v else None.
Proof.
  induction tps as [|t' tps IH]; [by rewrite decide_False by apply not_elem_of_nil|].
  cbn [fmap list_fmap list_to_map foldr]. destruct (decide (t' = t)) as [->|Hne].
  - rewrite lookup_insert_eq, decide_True by apply list_elem_of_here. done.
  - rewrite lookup_insert_ne, IH by done.
    destruct (decide (t ∈ tps)) as [Hin|Hout].
    + by rewrite decide_True by (by apply list_elem_of_further).
    + rewrite decide_False; [done|]. intros [?|?]%elem_of_cons; congruence.
Qed.

(** The load keeps the keys of the table. *)
Lemma load_row_keys (tps : list string) (mp : value) (x : string)
    (cols : list (string * string)) (dp dp' : gmap string (series (F:=F))) (t : string) :
  load_row float tps mp x cols dp = Ok dp' -> is_Some (dp' !! t) <-> is_Some (dp !! t).
Proof.
  revert dp. induction cols as [|[topic val] cols IH]; intros dp Hrun.
  - cbn in Hrun. by injection Hrun as <-.
  - cbn [load_row] in Hrun. case_bool_decide; [|by apply IH].
    destruct (dp !! topic) as [[xs ys]|] eqn:Hd; [|done].
    destruct (float val) as [y|]; [|done].
    destruct (neg mp) as [start|]; [|done].
    rewrite (IH _ Hrun), lookup_insert_is_Some.
    split; [intros [<-|[_ ?]]; [by (eexists; exact Hd)|done]|].
    intros Ht. destruct (decide (topic = t)); [by left|by right].
Qed.

Lemma load_lines_keys (tps : list string) (mp : value) (lines : list string) (i : nat)
    (hdr : list string) (dp dp' : gmap string (series (F:=F))) (t : string) :
  load_lines float tps mp i hdr lines dp = Ok dp' -> is_Some (dp' !! t) <-> is_Some (dp !! t).
Proof.
  revert i hdr dp. induction lines as [|line lines IH]; intros i hdr dp Hrun.
  - cbn in Hrun. by injection Hrun as <-.
  - cbn [load_lines] in Hrun. destruct (i =? 0)%nat; [by eapply IH|].
    destruct (load_row _ _ _ _ _ _) as [dp1|] eqn:Hrow; [|done].
    rewrite (IH _ _ _ Hrun). by eapply load_row_keys.
Qed.

(** X1. A constructed instance has the configured topics, and exactly
    them, as the keys of the store and of the windowed table; every
    reading list is empty; both connection flags are false and there is
    no live plot table. *)
Theorem constructor_initial_state (fname : string) (tps : list string) (vb pl : bool)
    (mp : value) (fs : gmap string string) (u : UserData (F:=F)) :
  __init__ float fname tps vb pl mp fs = Ok u ->
  topics u = tps /\
  (forall t : string, readings u !! t = if decide (t ∈ tps) then Some [] else None) /\
  (forall t : string, is_Some (default_plot u !! t) <-> t ∈ tps) /\
  _connected u = false /\ _last_connected u = false /\ plots u = None.
Proof.
  intros Hu. unfold __init__ in Hu.
  assert (forall t : string,
            is_Some ((list_to_map ((fun t' => (t', (([], []) : series (F:=F)))) <$> tps)
                      : gmap string series) !! t) <-> t ∈ tps) as Hdp0.
  { intros t. rewrite lookup_comprehension. destruct (decide (t ∈ tps)); [by eauto|].
    split; [by intros [? ?]|done]. }
  destruct (fs !! fname) as [content|]; [destruct pl|].
  - destruct (load_lines _ _ _ _ _ _ _) as [dp|] eqn:Hload; [|done].
    injection Hu as <-. cbn. repeat split; try done; try apply lookup_comprehension.
    + intros Ht. apply Hdp0. by rewrite <- (load_lines_keys _ _ _ _ _ _ _ t Hload).
    + intros Ht. rewrite (load_lines_keys _ _ _ _ _ _ _ t Hload). by apply Hdp0.
  - injection Hu as <-. cbn. repeat split; try done; try apply lookup_comprehension;
      by apply Hdp0.
  - injection Hu as <-. cbn. repeat split; try done; try apply lookup_comprehension;
      by apply Hdp0.
Qed.

(** X2. With plotting off, or when the log does not exist, the
    construction cannot fail and loads nothing: every series of a
    configured topic is empty. *)
Theorem constructor_without_history (fname : string) (tps : list string) (vb pl : bool)
    (mp : value) (fs : gmap string string) :
  pl = false \/ fs !! fname = None ->
  exists u : UserData (F:=F),
    __init__ float fname tps vb pl mp fs = Ok u /\
    forall t : string, t ∈ tps -> default_plot u !! t = Some ([], []).
Proof.
  intros Hoff. eexists. split.
  - unfold __init__. destruct Hoff as [->| ->]; [by destruct (fs !! fname)|done].
  - intros t Ht. cbn. by rewrite lookup_comprehension, decide_True.
Qed.

(** An invariant of single series that the append-and-trim step keeps
    holds of every series after the load. *)
Lemma load_row_invariant (P : series (F:=F) -> Prop) (tps : list string) (mp : value)
    (x : string) (cols : list (string * string)) (dp dp' : gmap string series) :
  (forall start xs ys x' y',
     P (xs, ys) -> P (slice_from start (xs ++ [x']), slice_from start (ys ++ [y']))) ->
  map_Forall (fun _ => P) dp ->
  load_row float tps mp x cols dp = Ok dp' ->
  map_Forall (fun _ => P) dp'.
Proof.
  intros Hstep. revert dp. induction cols as [|[topic val] cols IH]; intros dp Hb Hrun.
  - cbn in Hrun. by injection Hrun as <-.
  - cbn [load_row] in Hrun. case_bool_decide; [|by eapply IH].
    destruct (dp !! topic) as [[xs ys]|] eqn:Hd; [|done].
    destruct (float val) as [y|]; [|done].
    destruct (neg mp) as [start|]; [|done].
    eapply IH; [|exact Hrun].
    apply map_Forall_insert_2; [|done]. apply Hstep. by apply (Hb topic).
Qed.

Lemma load_lines_invariant (P : series (F:=F) -> Prop) (tps : list string) (mp : value)
    (lines : list string) (i : nat) (hdr : list string) (dp dp' : gmap string series) :
  (forall start xs ys x' y',
     P (xs, ys) -> P (slice_from start (xs ++ [x']), slice_from start (ys ++ [y']))) ->
  map_Forall (fun _ => P) dp ->
  load_lines float tps mp i hdr lines dp = Ok dp' ->
  map_Forall (fun _ => P) dp'.
Proof.
  intros Hstep. revert i hdr dp. induction lines as [|line lines IH]; intros i hdr dp Hb Hrun.
  - cbn in Hrun. by injection Hrun as <-.
  - cbn [load_lines] in Hrun. destruct (i =? 0)%nat; [by eapply IH|].
    destruct (load_row _ _ _ _ _ _) as [dp1|] eqn:Hrow; [|done].
    eapply IH; [|exact Hrun]. by eapply load_row_invariant.
Qed.

Lemma slice_from_same_length {A B : Type} (start : Z) (l1 : list A) (l2 : list B) :
  length l1 = length l2 -> length (slice_from start l1) = length (slice_from start l2).
Proof. intros H. unfold slice_from. by rewrite !length_drop, H. Qed.

(** X3. Whatever the window size, the x and the y sequence of every
    series of a constructed instance have the same length: the load
    appends to both and trims both alike. *)
Theorem constructor_series_parallel (fname : string) (tps : list string) (vb pl : bool)
    (mp : value) (fs : gmap string string) (u : UserData (F:=F)) :
  __init__ float fname tps vb pl mp fs = Ok u ->
  series_parallel (default_plot u).
Proof.
  intros Hu.
  assert (series_parallel
            (list_to_map ((fun t => (t, (([], []) : series (F:=F)))) <$> tps))) as H0.
  { intros t s Hs. rewrite lookup_comprehension in Hs.
    destruct (decide (t ∈ tps)); [by injection Hs as <-|done]. }
  unfold __init__ in Hu. destruct (fs !! fname) as [content|]; [destruct pl|];
    try (by injection Hu as <-).
  destruct (load_lines _ _ _ _ _ _ _) as [dp|] eqn:Hload; [|done].
  injection Hu as <-. cbn.
  eapply (load_lines_invariant (fun s => length (fst s) = length (snd s))); [|exact H0|exact Hload].
  intros start xs ys x' y' Hlen. cbn [fst snd] in *. apply slice_from_same_length.
  by rewrite !length_app, Hlen.
Qed.

(** X4. First in, first out.  A row's field for a configured topic whose
    series is full (window size [n] at least 1) is appended at the end
    of both sequences and the oldest entry of each is dropped. *)
Theorem load_row_evicts_oldest (tps : list string) (n : Z) (x topic val : string)
    (dp : gmap string (series (F:=F))) (xs : list string) (ys : list F) (y : F) :
  (0 < n)%Z ->
  topic ∈ tps ->
  dp !! topic = Some (xs, ys) ->
  Z.of_nat (length xs) = n ->
  Z.of_nat (length ys) = n ->
  float val = Some y ->
  load_row float tps n x [(topic, val)] dp =
    Ok (<[topic := (drop 1 xs ++ [x], drop 1 ys ++ [y])]> dp).
Proof.
  intros Hn Hin Hd Hx Hy Hval. cbn [load_row]. rewrite bool_decide_eq_true_2 by done.
  unfold series in *. rewrite Hd, Hval. cbn [neg].
  change (slice_from (- n)) with (slice_last (A:=string) n) at 1.
  change (slice_from (- n)) with (slice_last (A:=F) n).
  by rewrite !slice_last_evicts_oldest.
Qed.

End Construction.

(** * Further properties: persistence, messages and the poll loop *)

Section Further.

Context {F : Type}.
Variable now : nat -> string.
Variable decode_utf8 : list Byte.byte -> option string.

Abbreviation World := (@World F).
Abbreviation UserData := (@UserData F).

(** X5. [write_last_reading] for a topic without a last reading (not a
    key of the store, or with an empty list) raises [KeyError] or
    [IndexError] after reading the clock: nothing is printed, and the
    log is neither created nor written. *)
Theorem write_last_reading_without_reading (w : World) (topic : string) :
  last_reading (self w) topic = None ->
  exists e : exn,
    (e = KeyError topic \/ e = IndexError) /\
    write_last_reading now topic w =
      (Raise e, mkWorld (self w) (files w) (refused w) (S (clock w)) (trace w)).
Proof.
  unfold last_reading. intros Hlast.
  unfold write_last_reading, mbind, M_bind, mret, M_ret, raise, gets, datetime_now.
  cbn [fst snd self files refused clock trace].
  destruct (readings (self w) !! topic) as [l|]; [|by eauto].
  cbn in Hlast. unfold last_item. rewrite Hlast. eauto.
Qed.

(** X6. On a log that exists, one call appends one record line with its
    terminator to what the log holds, and writes no header. *)
Theorem write_last_reading_appends_record (w : World) (topic x c : string) :
  files w !! filename (self w) = Some c ->
  last_reading (self w) topic = Some x ->
  write_last_reading now topic w =
    (Ok tt, mkWorld (self w)
              (<[filename (self w) := c +:+ record_line (now (clock w)) topic x +:+ nl]> (files w))
              (refused w) (S (clock w))
              (trace w ++ [Printed (record_line (now (clock w)) topic x);
                           FileWrite (filename (self w))
                             [record_line (now (clock w)) topic x; nl]])).
Proof.
  intros Hf Hlast. destruct (last_reading_Some _ _ _ Hlast) as (l & Hl & Hx).
  rewrite (write_last_reading_run now w topic l x Hl Hx) by (left; rewrite Hf; eauto).
  rewrite bool_decide_eq_true_2 by (rewrite Hf; eauto).
  unfold persisted, persist_events. by rewrite Hf.
Qed.

(** X7. The live plot step returns normally for the literal [nan] and
    for no other value; either way it changes neither the instance nor
    any file: no point is ever added to a series. *)
Theorem plot_reading_returns_iff_nan (topic data : string) (w : World) :
  (fst (plot_reading topic data w) = Ok tt <-> data = "nan") /\
  snd (plot_reading topic data w) =
    mkWorld (self w) (files w) (refused w) (clock w) (trace w ++ [PlotCall topic data]).
Proof.
  destruct (decide (data = "nan")) as [->|Hd].
  - by rewrite plot_reading_nan.
  - destruct (plot_reading_raises topic data w Hd) as [e ->]. cbn. by split.
Qed.

(** The handler's result and the instance it leaves, for a payload that
    decodes. *)
Lemma on_message_decoded (msg : message) (data : string) (w : World) :
  decode_utf8 (msg_payload msg) = Some data ->
  exists w' : World,
    on_message now decode_utf8 msg w = (Ok tt, w') /\
    self w' = self (snd (add_reading now (msg_topic msg) data w)).
Proof.
  intros Hdec. unfold on_message. rewrite Hdec.
  unfold mbind, M_bind, mret, M_ret, try_except, print, emit.
  destruct (add_reading now (msg_topic msg) data w) as [[[]|e] w1]; eauto.
Qed.

(** X8. The message handler returns normally exactly when the payload
    decodes: every exception of [add_reading] is caught and printed.  A
    payload that does not decode raises [UnicodeDecodeError] out of the
    handler, the decoding being outside the [try], and changes nothing. *)
Theorem on_message_outcome (msg : message) (w : World) :
  fst (on_message now decode_utf8 msg w) =
    match decode_utf8 (msg_payload msg) with
    | Some _ => Ok tt
    | None => Raise UnicodeDecodeError
    end /\
  (decode_utf8 (msg_payload msg) = None -> snd (on_message now decode_utf8 msg w) = w).
Proof.
  destruct (decode_utf8 (msg_payload msg)) as [data|] eqn:Hdec.
  - destruct (on_message_decoded msg data w Hdec) as (w' & -> & _). by split.
  - unfold on_message. rewrite Hdec. by split.
Qed.

(** The store after one decoded message. *)
Lemma on_message_store (msg : message) (data : string) (w : World) :
  decode_utf8 (msg_payload msg) = Some data ->
  exists w' : World,
    on_message now decode_utf8 msg w = (Ok tt, w') /\
    forall t : string,
      readings (self w') !! t =
        (fun l0 => l0 ++ values_for t [(msg_topic msg, data)]) <$> (readings (self w) !! t).
Proof.
  intros Hdec. destruct (on_message_decoded msg data w Hdec) as (w' & Hrun & Hself).
  exists w'. split; [done|]. intros t. rewrite Hself, add_reading_self, values_for_one.
  destruct (readings (self w) !! msg_topic msg) as [l|] eqn:Hl.
  - cbn [set_readings readings]. case_bool_decide as Ht.
    + subst t. by rewrite lookup_insert_eq, Hl.
    + rewrite lookup_insert_ne by done.
      destruct (readings (self w) !! t); cbn; [by rewrite app_nil_r|done].
  - case_bool_decide as Ht.
    + subst t. by rewrite Hl.
    + destruct (readings (self w) !! t); cbn; [by rewrite app_nil_r|done].
Qed.

(** X9. Messages handled one after the other, all with payloads that
    decode: every handler returns normally, and afterwards each topic of
    the store holds what it held before followed by the values of the
    messages for that topic in the order of arrival, whether or not the
    plot step or the write failed on the way.  Topics that are not in
    the store stay out of it. *)
Theorem messages_stored_in_arrival_order (ms : list message) (cs : list call) (w : World) :
  Forall2 (fun m c => msg_topic m = fst c /\ decode_utf8 (msg_payload m) = Some (snd c)) ms cs ->
  exists w' : World,
    for_each ms (on_message now decode_utf8) w = (Ok tt, w') /\
    forall t : string,
      readings (self w') !! t = (fun l0 => l0 ++ values_for t cs) <$> (readings (self w) !! t).
Proof.
  intros Hall. revert w. induction Hall as [|m [topic data] ms cs [Ht Hd] _ IH]; intros w.
  - exists w. split; [done|]. intros t.
    destruct (readings (self w) !! t); cbn; [by rewrite app_nil_r|done].
  - cbn [fst snd] in *. destruct (on_message_store m data w Hd) as (w1 & Hrun1 & Hst1).
    destruct (IH w1) as (w' & Hrun & Hst). exists w'. split.
    + cbn [for_each]. unfold mbind, M_bind. by rewrite Hrun1.
    + intros t. rewrite Hst, Hst1, Ht.
      change ((topic, data) :: cs) with ([(topic, data)] ++ cs). rewrite values_for_app.
      destruct (readings (self w) !! t); cbn; [by rewrite app_assoc|done].
Qed.

End Further.

(** * Further properties: what the callbacks and the poll loop keep *)

Section PollLoop.

Context {F : Type}.
Variable float : string -> option F.
Variable now : nat -> string.
Variable decode_utf8 : list Byte.byte -> option string.

Abbreviation World := (@World F).
Abbreviation UserData := (@UserData F).
Abbreviation M := (@M F).

Lemma evolves_refl (u : UserData) : evolves u u.
Proof.
  repeat split. intros topic. destruct (readings u !! topic) as [l|]; [|done].
  exists []. by rewrite app_nil_r.
Qed.

Lemma evolves_trans (u1 u2 u3 : UserData) : evolves u1 u2 -> evolves u2 u3 -> evolves u1 u3.
Proof.
  intros (?&?&?&?&?&?&?&?&?&H12) (?&?&?&?&?&?&?&?&?&H23).
  repeat split; try congruence. intros topic.
  specialize (H12 topic). specialize (H23 topic).
  destruct (readings u1 !! topic) as [l|].
  - destruct H12 as [l1 H12]. rewrite H12 in H23. destruct H23 as [l2 H23].
    exists (l1 ++ l2). by rewrite app_assoc.
  - by rewrite H12 in H23.
Qed.

Lemma evolves_last_connected (b : bool) (u : UserData) : evolves u (set__last_connected b u).
Proof.
  repeat split. intros topic. cbn. destruct (readings u !! topic) as [l|]; [|done].
  exists []. by rewrite app_nil_r.
Qed.

Lemma evolves_add_reading (topic data : string) (w : World) :
  evolves (self w) (self (snd (add_reading now topic data w))).
Proof.
  rewrite add_reading_self. destruct (readings (self w) !! topic) as [l|] eqn:Hl;
    [|apply evolves_refl].
  repeat split. intros t. cbn [set_readings readings].
  destruct (decide (topic = t)) as [<-|Hne].
  - rewrite Hl, lookup_insert_eq. by exists [data].
  - rewrite lookup_insert_ne by done. destruct (readings (self w) !! t) as [l'|]; [|done].
    exists []. by rewrite app_nil_r.
Qed.

(** The whole of [on_connect], for either kind of result code. *)
Lemma on_connect_run (rc : Z) (w : World) :
  on_connect rc w =
    if bool_decide (rc = 0%Z)
    then (Raise (AttributeError "last_connected"),
          mkWorld (set__last_connected true (self w)) (files w) (refused w) (clock w)
            (trace w ++ [Printed ("Connected " +:+ pretty rc)]
               ++ (Subscribe <$> topics (self w)) ++ [LockAcquire; LockRelease]))
    else (Ok tt, mkWorld (self w) (files w) (refused w) (clock w)
                   (trace w ++ [Printed ("Connected " +:+ pretty rc)])).
Proof.
  unfold on_connect, print. unfold mbind at 1, M_bind at 1, emit at 1. cbn [fst snd].
  case_bool_decide; [|done].
  unfold mbind at 1, M_bind at 1, gets at 1. cbn [self].
  unfold mbind at 1, M_bind at 1. rewrite for_each_subscribe.
  unfold mbind at 1, M_bind at 1. rewrite setattr_connected, setattr_last_connected.
  cbn [self files clock trace]. by rewrite <- !app_assoc.
Qed.

Lemma on_connect_self (rc : Z) (w : World) :
  self (snd (on_connect rc w)) =
    if bool_decide (rc = 0%Z) then set__last_connected true (self w) else self w.
Proof. rewrite on_connect_run. by case_bool_decide. Qed.

Lemma on_disconnect_run (rc : Z) (w : World) :
  on_disconnect rc w =
    (Ok tt, mkWorld (set__last_connected false (self w)) (files w) (refused w) (clock w)
              (trace w ++ [Printed ("Disconnected " +:+ pretty rc); LockAcquire; LockRelease])).
Proof.
  unfold on_disconnect, print. unfold mbind at 1, M_bind at 1, emit at 1. cbn [fst snd].
  rewrite setattr_connected. cbn [self files clock trace]. by rewrite <- app_assoc.
Qed.

(** X21. The disconnect handler returns normally for every result code.
    It writes [False] to the field [_last_connected], from which both
    [connected] and [last_connected] read, and leaves the field
    [_connected], the store and the files as they are. *)
Theorem on_disconnect_effect (rc : Z) (w : World) :
  exists w' : World,
    on_disconnect rc w = (Ok tt, w') /\
    _last_connected (self w') = false /\
    _connected (self w') = _connected (self w) /\
    readings (self w') = readings (self w) /\
    files w' = files w /\
    fst (getattr "connected" w') = Ok false /\
    fst (getattr "last_connected" w') = Ok false.
Proof.
  eexists. split; [apply on_disconnect_run|].
  rewrite getattr_connected, getattr_last_connected. by destruct w as [[] ? ? ? ?].
Qed.

Lemma evolves_deliver (ev : net_event) (w : World) :
  evolves (self w) (self (snd (deliver now decode_utf8 ev w))).
Proof.
  destruct ev as [rc|rc|msg]; cbn [deliver].
  - rewrite on_connect_self. case_bool_decide;
      [apply evolves_last_connected|apply evolves_refl].
  - rewrite on_disconnect_run. apply evolves_last_connected.
  - destruct (decode_utf8 (msg_payload msg)) as [data|] eqn:Hdec.
    + destruct (on_message_decoded now decode_utf8 msg data w Hdec) as (w' & Hrun & Hself).
      rewrite Hrun. cbn [snd]. rewrite Hself. apply evolves_add_reading.
    + unfold on_message. rewrite Hdec. apply evolves_refl.
Qed.

Lemma evolves_client_loop (suppress_exceptions : bool) (pending : option net_event)
    (w : World) :
  evolves (self w) (self (snd (client_loop now decode_utf8 suppress_exceptions pending w))).
Proof.
  destruct pending as [ev|]; cbn [client_loop]; [|apply evolves_refl].
  pose proof (evolves_deliver ev w) as Hev.
  destruct suppress_exceptions; [|done].
  unfold try_except. by destruct (deliver now decode_utf8 ev w) as [[[]|e] w1].
Qed.

(** X10. Whatever the transport delivers, and for as long as the poll
    loop runs, the instance keeps its configuration ([filename],
    [topics], [verbose], [plot], [max_plot]), its windowed tables and
    the value of the field [_connected]; the store keeps its keys, and
    every stored sequence only grows at its end: nothing is ever removed
    or reordered. *)
Theorem poll_evolves (suppress_exceptions : bool) (url : string) (port : Z)
    (schedule : list (option net_event)) (w : World) :
  evolves (self w) (self (snd (poll now decode_utf8 suppress_exceptions url port schedule w))).
Proof.
  revert w. induction schedule as [|pending rest IH]; intros w; [apply evolves_refl|].
  cbn [poll]. pose proof (evolves_client_loop suppress_exceptions pending w) as H1.
  unfold mbind at 1, M_bind at 1.
  destruct (client_loop now decode_utf8 suppress_exceptions pending w) as [[[]|e] w1];
    cbn [snd] in *; [|done].
  unfold mbind at 1, M_bind at 1. rewrite reconnect_check_never_fires.
  eapply evolves_trans; [exact H1|].
  match goal with
  | |- evolves _ (self (snd (poll _ _ _ _ _ _ ?w2))) => exact (IH w2)
  end.
Qed.

(** X11. A run of [main] in active mode whose construction succeeds
    makes exactly one connect attempt, the one before the loop, whatever
    the transport delivers afterwards and however long the loop runs. *)
Theorem main_connects_once (url : string) (port : Z) (tps : list string) (fname : string)
    (vb : bool) (mp : value) (suppress_exceptions : bool)
    (schedule : list (option net_event)) (fs : gmap string string)
    (rf : string -> option refusal) (r : result unit) (w : World) :
  main float now decode_utf8 url port tps fname vb mp suppress_exceptions schedule fs rf
    = (r, Some w) ->
  List.filter is_connect (trace w) = [Connect url port].
Proof.
  unfold main. destruct (__init__ _ _ _ _ _ _ _) as [u|]; [|done].
  unfold mbind at 1, M_bind at 1, emit at 1. cbn [app trace self files refused clock].
  destruct (poll_never_reconnects now decode_utf8 suppress_exceptions url port schedule
              (mkWorld u fs rf 0 [Connect url port])) as (tr & Htr & Hq).
  destruct (poll _ _ _ _ _ _ _) as [r' w']. intros [= <- <-].
  cbn [snd trace] in Htr. rewrite Htr, List.filter_app. cbn.
  unfold connect_attempts in Hq. by rewrite (nil_length_inv _ Hq).
Qed.

(** ** The lock is never taken twice *)

Lemma lock_after_app (held : bool) (tr1 tr2 : list event) :
  lock_after held (tr1 ++ tr2) = lock_after held tr1 ≫= fun h => lock_after h tr2.
Proof.
  revert held. induction tr1 as [|e tr1 IH]; intros held; [done|].
  destruct e, held; cbn; by rewrite ?IH.
Qed.

Lemma lockless_same_trace {A : Type} (m : M A) :
  (forall w : World, trace (snd (m w)) = trace w) -> lockless m.
Proof. intros H w. exists []. by rewrite H, app_nil_r. Qed.

Lemma lockless_emit (e : event) :
  e <> LockAcquire -> e <> LockRelease -> lockless (F:=F) (emit e).
Proof. intros H1 H2 w. exists [e]. split; [done|]. intros held. by destruct e. Qed.

Lemma lockless_bind {A B : Type} (m : M A) (f : A -> M B) :
  lockless m -> (forall a : A, lockless (f a)) -> lockless (m ≫= f).
Proof.
  intros Hm Hf w. destruct (Hm w) as (tr1 & E1 & Q1).
  unfold mbind, M_bind. destruct (m w) as [[a|e] w1]; cbn [snd] in *.
  - destruct (Hf a w1) as (tr2 & E2 & Q2). exists (tr1 ++ tr2).
    rewrite E2, E1, app_assoc. split; [done|]. intros held.
    by rewrite lock_after_app, Q1; cbn.
  - by exists tr1.
Qed.

Lemma lockless_when (b : bool) (m : M unit) : lockless m -> lockless (when b m).
Proof. destruct b; [done|]. intros _. by apply lockless_same_trace. Qed.

Lemma lock_safe_lockless {A : Type} (m : M A) : lockless m -> lock_safe m.
Proof. intros Hm w. destruct (Hm w) as (tr & E & Q). exists tr. by rewrite Q. Qed.

Lemma lock_safe_bind {A B : Type} (m : M A) (f : A -> M B) :
  lock_safe m -> (forall a : A, lock_safe (f a)) -> lock_safe (m ≫= f).
Proof.
  intros Hm Hf w. destruct (Hm w) as (tr1 & E1 & Q1).
  unfold mbind, M_bind. destruct (m w) as [[a|e] w1]; cbn [snd] in *.
  - destruct (Hf a w1) as (tr2 & E2 & Q2). exists (tr1 ++ tr2).
    rewrite E2, E1, app_assoc. split; [done|]. by rewrite lock_after_app, Q1; cbn.
  - by exists tr1.
Qed.

Lemma lock_safe_try_except {A : Type} (m : M A) (h : exn -> M A) :
  lock_safe m -> (forall e : exn, lock_safe (h e)) -> lock_safe (try_except m h).
Proof.
  intros Hm Hh w. destruct (Hm w) as (tr1 & E1 & Q1).
  unfold try_except. destruct (m w) as [[a|e] w1]; cbn [snd] in *.
  - by exists tr1.
  - destruct (Hh e w1) as (tr2 & E2 & Q2). exists (tr1 ++ tr2).
    rewrite E2, E1, app_assoc. split; [done|]. by rewrite lock_after_app, Q1; cbn.
Qed.

(** A block under the lock is safe when its body leaves the lock alone. *)
Lemma lock_safe_with_lock {A : Type} (body : M A) : lockless body -> lock_safe (with_lock body).
Proof.
  intros Hb w. unfold with_lock, emit. cbn [fst snd self files refused clock trace].
  set (w1 := mkWorld _ _ _ _ _). destruct (Hb w1) as (tr & E & Q).
  destruct (body w1) as [r w2]; cbn [snd trace] in *.
  exists ([LockAcquire] ++ tr ++ [LockRelease]).
  rewrite E. subst w1. cbn [trace]. rewrite <- !app_assoc. split; [done|].
  cbn [app lock_after]. by rewrite lock_after_app, Q.
Qed.

Ltac lockless_step :=
  first
    [ apply lockless_emit; discriminate
    | apply lockless_same_trace; apply open_append_trace
    | apply lockless_bind; [|intros ?]
    | apply lockless_when
    | apply lockless_same_trace; intros ?; reflexivity
    | match goal with
      | |- lockless (match ?x with _ => _ end) => destruct x
      end
    | intros ?; eexists [_]; split; [reflexivity|]; intros []; reflexivity ].

Lemma lockless_write_last_reading (topic : string) :
  lockless (F:=F) (write_last_reading now topic).
Proof. unfold write_last_reading, print. repeat lockless_step. Qed.

Lemma lockless_plot_reading (topic data : string) : lockless (F:=F) (plot_reading topic data).
Proof. unfold plot_reading. repeat lockless_step. Qed.

Lemma lock_safe_add_reading (topic data : string) :
  lock_safe (F:=F) (add_reading now topic data).
Proof.
  unfold add_reading, print. apply lock_safe_with_lock.
  repeat first [ apply lockless_write_last_reading | apply lockless_plot_reading
               | lockless_step ].
Qed.

Lemma lock_safe_deliver (ev : net_event) : lock_safe (F:=F) (deliver now decode_utf8 ev).
Proof.
  intros w. destruct ev as [rc|rc|msg]; cbn [deliver].
  - rewrite on_connect_run.
    case_bool_decide; [|by exists [Printed ("Connected " +:+ pretty rc)]].
    cbn [snd trace]. eexists. split; [reflexivity|].
    cbn [app lock_after]. rewrite lock_after_app.
    assert (lock_after false (Subscribe <$> topics (self w)) = Some false) as ->; [|done].
    induction (topics (self w)) as [|t l IH]; [done|exact IH].
  - rewrite on_disconnect_run. by eexists.
  - unfold on_message.
    destruct (decode_utf8 (msg_payload msg)) as [data|]; [|exists []; by rewrite app_nil_r].
    apply lock_safe_bind; [by apply lock_safe_lockless, lockless_same_trace|]. intros ?.
    apply lock_safe_try_except; [apply lock_safe_add_reading|].
    intros e. apply lock_safe_lockless. unfold print. apply lockless_emit; discriminate.
Qed.

(** X12. Started with the lock free, the poll loop never takes the lock
    while it holds it (the lock is not re-entrant: that would block for
    ever) and never releases a free lock; every callback and every
    check leaves the lock free, also when it ends by an exception. *)
Theorem poll_lock_safe (suppress_exceptions : bool) (url : string) (port : Z)
    (schedule : list (option net_event)) :
  lock_safe (F:=F) (poll now decode_utf8 suppress_exceptions url port schedule).
Proof.
  induction schedule as [|pending rest IH];
    [by apply lock_safe_lockless, lockless_same_trace|].
  cbn [poll]. apply lock_safe_bind.
  - destruct pending as [ev|]; cbn [client_loop];
      [|by apply lock_safe_lockless, lockless_same_trace].
    destruct suppress_exceptions; [|apply lock_safe_deliver].
    apply lock_safe_try_except; [apply lock_safe_deliver|].
    intros _. by apply lock_safe_lockless, lockless_same_trace.
  - intros _. apply lock_safe_bind; [|intros _; exact IH].
    intros w. rewrite reconnect_check_never_fires. eexists. split; [reflexivity|].
    by destruct (_last_connected (self w)).
Qed.

End PollLoop.

(** * Further properties: the log read back *)

Section LogReadBack.

Lemma append_cons (c : ascii) (a b : string) : String c a +:+ b = String c (a +:+ b).
Proof. reflexivity. Qed.

Lemma occurs_append (c : ascii) (a b : string) :
  occurs c (a +:+ b) = occurs c a || occurs c b.
Proof.
  induction a as [|x a IH]; [done|].
  rewrite append_cons. cbn [occurs]. by rewrite IH, orb_assoc.
Qed.

Lemma split_free (sep : ascii) (s : string) : occurs sep s = false -> split sep s = [s].
Proof.
  induction s as [|c s IH]; [done|]. cbn [occurs split].
  intros [Hc Hs]%orb_false_elim. by rewrite Hc, (IH Hs).
Qed.

Lemma split_append (sep : ascii) (a b : string) :
  occurs sep a = false -> split sep (a +:+ String sep b) = a :: split sep b.
Proof.
  induction a as [|c a IH].
  - intros _. rewrite append_nil_l. cbn [split]. by rewrite Ascii.eqb_refl.
  - cbn [occurs]. intros [Hc Ha]%orb_false_elim.
    rewrite append_cons. cbn [split]. by rewrite Hc, (IH Ha).
Qed.

Lemma split_record_line (stamp topic data : string) :
  occurs comma stamp = false ->
  occurs comma topic = false ->
  occurs comma data = false ->
  split comma (record_line stamp topic data +:+ nl) = [stamp; topic; data +:+ nl].
Proof.
  intros Hs Ht Hd. unfold record_line. rewrite !append_assoc.
  change ("," +:+ topic +:+ "," +:+ data +:+ nl)
    with (String comma (topic +:+ String comma (data +:+ nl))).
  rewrite (split_append comma stamp _ Hs), (split_append comma topic _ Ht).
  by rewrite split_free by (by rewrite occurs_append, Hd).
Qed.

(** X13. Round trip of one record.  When neither the time stamp nor the
    topic nor the value contains a comma, the line that
    [write_last_reading] writes, terminator included, is split at its
    commas into exactly these three fields, the last one carrying the
    terminator. *)
Theorem record_line_splits (stamp topic data : string) :
  occurs comma stamp = false ->
  occurs comma topic = false ->
  occurs comma data = false ->
  split comma (record_line stamp topic data +:+ nl) = [stamp; topic; data +:+ nl].
Proof. apply split_record_line. Qed.

Lemma readlines_line (line rest : string) :
  one_line line ->
  readlines (line +:+ nl +:+ rest) = (line +:+ nl) :: readlines rest.
Proof.
  induction line as [|c line IH].
  - intros _. rewrite !append_nil_l. unfold nl. rewrite append_cons, append_nil_l.
    cbn [readlines]. by rewrite Ascii.eqb_refl.
  - intros [[Hc Hl]%orb_false_elim [Hc' Hl']%orb_false_elim].
    rewrite !append_cons. cbn [readlines]. by rewrite Hc, Hc', (IH (conj Hl Hl')).
Qed.

Lemma readlines_lines (lines : list string) :
  Forall one_line lines ->
  readlines (render lines) = (fun line => line +:+ nl) <$> lines.
Proof.
  induction 1 as [|line lines Hl _ IH]; [done|].
  cbn [render fold_right fmap list_fmap]. fold (render lines).
  by rewrite (readlines_line line _ Hl), IH.
Qed.

(** X14. Round trip of the file.  A text made of lines without line
    terminator inside (neither a line feed nor a carriage return), each
    followed by its terminator, is read back by [readlines] as these
    lines, each with its terminator. *)
Theorem readlines_render (lines : list string) :
  Forall one_line lines ->
  readlines (render lines) = (fun line => line +:+ nl) <$> lines.
Proof. apply readlines_lines. Qed.

Lemma chomp_line (s : string) : chomp (s +:+ nl) = Some s.
Proof.
  induction s as [|c s IH]; [done|].
  rewrite append_cons. cbn [chomp]. rewrite IH.
  by destruct (s +:+ nl) eqn:E; [destruct s|].
Qed.

Lemma split_record (stamp topic data : string) :
  occurs comma stamp = false ->
  occurs comma topic = false ->
  occurs comma data = false ->
  split comma (record_line stamp topic data) = [stamp; topic; data].
Proof.
  intros Hs Ht Hd. unfold record_line.
  change ("," +:+ topic +:+ "," +:+ data)
    with (String comma (topic +:+ String comma data)).
  rewrite (split_append comma stamp _ Hs), (split_append comma topic _ Ht).
  by rewrite split_free.
Qed.

(** The fields of the line of a record without commas. *)
Lemma fields_line_of (r : string * string * string) :
  clean r -> fields (line_of r +:+ nl) = Some (fields_of r).
Proof.
  destruct r as [[stamp topic] data]. intros [(Hs & Ht & Hd) _].
  unfold fields. rewrite chomp_line. cbn [fmap option_fmap option_map line_of fields_of].
  by rewrite split_record.
Qed.

Lemma line_of_clean (r : string * string * string) : clean r -> one_line (line_of r).
Proof.
  destruct r as [[stamp topic] data]. intros [_ ([Hs Hs'] & [Ht Ht'] & [Hd Hd'])].
  unfold line_of, record_line, one_line.
  by rewrite !occurs_append, Hs, Ht, Hd, Hs', Ht', Hd'.
Qed.

End LogReadBack.

(** * The lines of a log that the program has written *)

Section LogLines.

Context {F : Type}.
Variable now : nat -> string.

Abbreviation World := (@World F).
Abbreviation UserData := (@UserData F).

Lemma record_lines_records (u : UserData) (k : nat) (tps : list string) :
  record_lines now u k tps = line_of <$> records now u k tps.
Proof. unfold record_lines, records. by rewrite fmap_imap. Qed.

(** C6, as the code has it.  A run of [write_last_reading] calls, each
    for a topic that has a last reading, on a log that does not exist
    and can be created.  All calls return; the log then holds the header
    line followed by the record lines of the calls in order, every line
    with its terminator; the writes are the one of the header, first,
    then one a record.  When no time stamp, topic or value holds a comma
    or a line terminator, the lines of the file as [readlines] gives
    them are these lines, and each of them has exactly three fields:
    those of the header, then those of the records. *)
Theorem header_written_once_first (w : World) (t : string) (ts : list string) :
  files w !! filename (self w) = None ->
  refused w (filename (self w)) = None ->
  Forall (fun t' => is_Some (last_reading (self w) t')) (t :: ts) ->
  let fname := filename (self w) in
  let rs := records now (self w) (clock w) (t :: ts) in
  let content := render (header :: (line_of <$> rs)) in
  for_each (t :: ts) (write_last_reading now) w =
    (Ok tt, mkWorld (self w) (<[fname := content]> (files w)) (refused w)
              (clock w + length (t :: ts))
              (trace w ++ write_events fname (header :: (line_of <$> rs)))) /\
  length rs = length (t :: ts) /\
  (Forall clean rs ->
   readlines content = (fun line => line +:+ nl) <$> (header :: (line_of <$> rs)) /\
   fields <$> readlines content = Some <$> (["date"; "topic"; "data"] :: (fields_of <$> rs)) /\
   Forall three_fields (readlines content)).
Proof.
  intros Hf Hfree Hall fname rs content. subst fname rs content. split; [|split].
  - rewrite <- record_lines_records. by apply write_last_reading_creates.
  - unfold records. by rewrite length_imap.
  - intros Hclean.
    assert (readlines (render (header :: (line_of <$> records now (self w) (clock w) (t :: ts))))
            = (fun line => line +:+ nl)
                <$> (header :: (line_of <$> records now (self w) (clock w) (t :: ts)))) as Hlines.
    { apply readlines_lines. apply Forall_cons. split; [done|]. apply Forall_fmap.
      eapply Forall_impl; [exact Hclean|]. intros r Hr. by apply line_of_clean. }
    assert (fields <$> readlines
              (render (header :: (line_of <$> records now (self w) (clock w) (t :: ts))))
            = Some <$> (["date"; "topic"; "data"]
                          :: (fields_of <$> records now (self w) (clock w) (t :: ts)))) as Hfields.
    { rewrite Hlines. rewrite !fmap_cons. f_equal.
      rewrite <- !list_fmap_compose. apply Forall_fmap_ext_1.
      eapply Forall_impl; [exact Hclean|]. intros r Hr. cbn. by apply fields_line_of. }
    split; [exact Hlines|]. split; [exact Hfields|].
    apply Forall_forall. intros line Hin.
    assert (fields line ∈ fields <$> readlines
              (render (header :: (line_of <$> records now (self w) (clock w) (t :: ts)))))
      as Hin' by (by apply list_elem_of_fmap_2).
    rewrite Hfields in Hin'. apply elem_of_cons in Hin' as [Hhd|Hrec].
    + by exists "date", "topic", "data".
    + apply list_elem_of_fmap in Hrec as (l & Hl & Hin2).
      apply list_elem_of_fmap in Hin2 as ([[stamp topic] data] & -> & _).
      by exists stamp, topic, data.
Qed.

End LogLines.

Section OwnLog.

Context {F : Type}.
Variable float : string -> option F.

(** Under the header of the program's own log no row loads anything:
    the columns that are tested are [topic] and [data] with its line
    terminator. *)
Lemma load_own_rows (tps : list string) (mp : value) (i : nat) (lines : list string)
    (dp : gmap string (series (F:=F))) :
  "topic" ∉ tps ->
  ("data" +:+ nl) ∉ tps ->
  load_lines float tps mp (S i) ["date"; "topic"; "data" +:+ nl] lines dp = Ok dp.
Proof.
  intros Ht Hd. revert i. induction lines as [|line lines IH]; intros i; [done|].
  cbn [load_lines Nat.eqb tail].
  assert (load_row float tps mp (hd "" (split comma line))
            (zip ["topic"; "data" +:+ nl] (tail (split comma line))) dp = Ok dp) as ->.
  { destruct (tail (split comma line)) as [|a [|b rest]]; cbn [zip zip_with load_row];
      by rewrite ?(bool_decide_eq_false_2 _ Ht), ?(bool_decide_eq_false_2 _ Hd). }
  apply IH.
Qed.

(** X15. The loader on the program's own log.  A log as
    [write_last_reading] writes it (the header, then the lines of
    records, whatever their fields hold) is read without error and
    nothing of it is loaded, unless a configured topic is literally
    [topic] or [data] with a line terminator: the header's columns, not
    the records' second field, are taken as the topics. *)
Theorem own_log_loads_nothing (fname : string) (tps : list string) (vb : bool) (mp : value)
    (fs : gmap string string) (records : list (string * string * string)) :
  "topic" ∉ tps ->
  ("data" +:+ nl) ∉ tps ->
  fs !! fname = Some (render (header :: (line_of <$> records))) ->
  exists u : UserData (F:=F),
    __init__ float fname tps vb true mp fs = Ok u /\
    forall t : string, t ∈ tps -> default_plot u !! t = Some ([], []).
Proof.
  intros Ht Hd Hf. eexists. split.
  - unfold __init__. rewrite Hf. cbn [render fold_right]. fold (render (line_of <$> records)).
    rewrite readlines_line by done.
    cbn [load_lines Nat.eqb].
    change (split comma (header +:+ nl)) with ["date"; "topic"; "data" +:+ nl].
    rewrite (load_own_rows tps mp 0 _ _ Ht Hd). reflexivity.
  - intros t Hin. cbn. by rewrite lookup_comprehension, decide_True.
Qed.

End OwnLog.

(** * Readings in active mode *)

Section ActiveMode.

Context {F : Type}.
Variable float : string -> option F.
Variable now : nat -> string.
Variable decode_utf8 : list Byte.byte -> option string.

Abbreviation World := (@World F).
Abbreviation UserData := (@UserData F).

(** What the constructor sets, whatever it loads. *)
Lemma init_shape (fname : string) (tps : list string) (vb pl : bool) (mp : value)
    (fs : gmap string string) (u : UserData) :
  __init__ float fname tps vb pl mp fs = Ok u ->
  exists dp : gmap string series,
    u = mkUserData fname tps vb pl (list_to_map ((fun t => (t, [])) <$> tps)) None mp dp
          false false ∅.
Proof.
  unfold __init__. intros Hu.
  repeat match type of Hu with
         | context [match ?x with _ => _ end] => destruct x
         end; inversion Hu; by eexists.
Qed.

(** Without a plot table the plot step of a value other than [nan]
    ends at the read of [self.stations]. *)
Lemma plot_reading_no_table (topic data : string) (w : World) :
  plots (self w) = None ->
  data <> "nan" ->
  plot_reading topic data w =
    (Raise (AttributeError "stations"),
     mkWorld (self w) (files w) (refused w) (clock w) (trace w ++ [PlotCall topic data])).
Proof.
  intros Hp Hd. unfold plot_reading, mbind, M_bind, mret, M_ret, emit, gets, when, raise.
  cbn [fst snd self files refused clock trace].
  destruct (String.eqb data "nan") eqn:E; [by apply String.eqb_eq in E|].
  cbn [self]. by rewrite Hp.
Qed.

(** C3, against the code.  In active mode, on the instance that the
    constructor built and at any later point of its life, a call for a
    configured topic and a value other than [nan] appends the value to
    the store, enters the plot step, which is called before the write
    and raises at its read of [self.stations], and ends by that
    exception with the lock released: the reading is not written to the
    log, no file is created or changed, and no series is touched. *)
Theorem active_reading_not_persisted (fname : string) (tps : list string) (vb : bool)
    (mp : value) (fs : gmap string string) (u : UserData) (w : World) (topic data : string) :
  __init__ float fname tps vb true mp fs = Ok u ->
  evolves u (self w) ->
  topic ∈ tps ->
  data <> "nan" ->
  exists l : list string,
    readings (self w) !! topic = Some l /\
    add_reading now topic data w =
      (Raise (AttributeError "stations"),
       mkWorld (set_readings (<[topic := l ++ [data]]> (readings (self w))) (self w))
         (files w) (refused w) (clock w)
         (trace w ++ [LockAcquire; StoreAppend topic data]
            ++ (if vb then [Printed (topic +:+ " " +:+ data)] else [])
            ++ [PlotCall topic data; LockRelease])).
Proof.
  intros Hu Hev Hin Hd. destruct (init_shape _ _ _ _ _ _ _ Hu) as [dp ->].
  destruct Hev as (_ & _ & Hvb & Hpl & _ & Hplots & _ & _ & _ & Hstore).
  cbn [verbose plot plots readings] in *.
  specialize (Hstore topic). rewrite lookup_comprehension, decide_True in Hstore by done.
  destruct Hstore as [l Hl]. cbn [app] in Hl. exists l. split; [exact Hl|].
  unfold add_reading. run. rewrite Hl. run. cbn [set_readings verbose plot].
  rewrite Hvb.
  destruct vb; run; cbn [set_readings verbose plot]; rewrite Hpl;
    rewrite plot_reading_no_table by (cbn [self plots set_readings]; done);
    run; by rewrite <- !app_assoc.
Qed.


(** X23. The trim of the history load on a window that is a string, as
    the option [-n] gives it: a field of a configured topic that
    [float] accepts ends the load by [TypeError], whatever the string
    and whatever follows in the row. *)
Theorem load_row_type_error (tps : list string) (arg x topic val : string)
    (rest : list (string * string)) (dp : gmap string (series (F:=F))) (s : series (F:=F))
    (y : F) :
  topic ∈ tps ->
  dp !! topic = Some s ->
  float val = Some y ->
  load_row float tps (StrV arg) x ((topic, val) :: rest) dp =
    Raise (TypeError "bad operand type for unary -: 'str'").
Proof.
  intros Hin Hs Hval. cbn [load_row]. rewrite bool_decide_eq_true_2 by done.
  unfold series in *. rewrite Hs. destruct s. by rewrite Hval.
Qed.

End ActiveMode.

(** * Instances of the further properties *)

Lemma loaded_constructed :
  __init__ Sample.float "log.csv" ["a"] false true 3 {["log.csv" := Sample.wide_log]} =
    Ok (Sample.loaded 3).
Proof. vm_compute. reflexivity. Qed.

(** The instance of C3 for the first reading of the sample instance. *)
Lemma active_reading_not_persisted_witness :
  __init__ Sample.float "log.csv" ["a"; "b"] false true 3 ∅ = Ok (Sample.fresh true 3) /\
  evolves (Sample.fresh true 3) (self (Sample.world true 3)) /\
  ("a" ∈ ["a"; "b"]) /\
  "21.5" <> "nan" /\
  add_reading Sample.now "a" "21.5" (Sample.world true 3) =
    (Raise (AttributeError "stations"),
     mkWorld (set_readings (<["a" := ["21.5"]]> (readings (Sample.fresh true 3)))
                (Sample.fresh true 3))
       ∅ Sample.permissive 0
       [LockAcquire; StoreAppend "a" "21.5"; PlotCall "a" "21.5"; LockRelease]).
Proof.
  assert ("a" ∈ ["a"; "b"]) as Hin by apply list_elem_of_here.
  assert ("21.5" <> "nan") as Hd by discriminate.
  assert (evolves (Sample.fresh true 3) (self (Sample.world true 3))) as Hev
    by apply evolves_refl.
  split; [reflexivity|]. split; [exact Hev|]. split; [exact Hin|]. split; [exact Hd|].
  destruct (active_reading_not_persisted Sample.float Sample.now "log.csv" ["a"; "b"] false 3 ∅
              (Sample.fresh true 3) (Sample.world true 3) "a" "21.5"
              (fresh_constructed true 3) Hev Hin Hd) as (l & Hl & Hrun).
  rewrite Hrun. assert (l = []) as -> by (vm_compute in Hl; congruence). reflexivity.
Defined.

(** The instance of C6 at the sample store after one reading of each
    topic: three calls, four lines, the header first. *)
Lemma header_written_once_first_witness :
  let w := snd ((modify (set_readings (list_to_map [("a", ["1"]); ("b", ["2"; "3"])])))
                 (Sample.world false 3)) in
  let lines := [header; "t0,a,1"; "t1,b,3"; "t2,a,1"] in
  files w !! filename (self w) = None /\
  refused w (filename (self w)) = None /\
  Forall (fun t' => is_Some (last_reading (self w) t')) ["a"; "b"; "a"] /\
  Forall clean (records Sample.now (self w) (clock w) ["a"; "b"; "a"]) /\
  fst (for_each ["a"; "b"; "a"] (write_last_reading Sample.now) w) = Ok tt /\
  files (snd (for_each ["a"; "b"; "a"] (write_last_reading Sample.now) w)) !! "log.csv" =
    Some (render lines) /\
  fields <$> readlines (render lines) =
    [Some ["date"; "topic"; "data"]; Some ["t0"; "a"; "1"]; Some ["t1"; "b"; "3"];
     Some ["t2"; "a"; "1"]].
Proof.
  intros w lines.
  assert (files w !! filename (self w) = None) as Hf by (vm_compute; reflexivity).
  assert (refused w (filename (self w)) = None) as Hfree by reflexivity.
  assert (Forall (fun t' => is_Some (last_reading (self w) t')) ["a"; "b"; "a"]) as Hall.
  { repeat apply Forall_cons_2; try apply Forall_nil_2; vm_compute; eauto. }
  assert (Forall clean (records Sample.now (self w) (clock w) ["a"; "b"; "a"])) as Hclean.
  { repeat apply Forall_cons_2; try apply Forall_nil_2; vm_compute; done. }
  split; [exact Hf|]. split; [exact Hfree|]. split; [exact Hall|]. split; [exact Hclean|].
  destruct (header_written_once_first Sample.now w "a" ["b"; "a"] Hf Hfree Hall)
    as (Hrun & _ & Hlines).
  destruct (Hlines Hclean) as (_ & Hfields & _).
  rewrite Hrun. split; [reflexivity|]. split; [vm_compute; reflexivity|].
  vm_compute in Hfields. vm_compute. exact Hfields.
Defined.

(** C6, against the code.  The value of a reading is the payload as it
    came: with a line feed in it, the one call on a log that does not
    exist leaves three lines, and the last of them has a single field. *)
Lemma line_feed_in_value_breaks_line :
  let w := snd ((modify (set_readings (list_to_map [("a", ["x" +:+ nl +:+ "y"])])))
                 (Sample.world false 3)) in
  let run := for_each ["a"] (write_last_reading Sample.now) w in
  files w !! "log.csv" = None /\
  fst run = Ok tt /\
  (readlines <$> files (snd run) !! "log.csv") =
    Some [header +:+ nl; "t0,a,x" +:+ nl; "y" +:+ nl] /\
  fields ("y" +:+ nl) = Some ["y"] /\
  ~ Forall three_fields [header +:+ nl; "t0,a,x" +:+ nl; "y" +:+ nl].
Proof.
  intros w run.
  split; [vm_compute; reflexivity|]. split; [vm_compute; reflexivity|].
  split; [vm_compute; reflexivity|]. split; [vm_compute; reflexivity|].
  intros Hall.
  apply Forall_cons in Hall as [_ Hall]. apply Forall_cons in Hall as [_ Hall].
  apply Forall_cons in Hall as [(a & b & c & Habc) _]. vm_compute in Habc. discriminate Habc.
Qed.


(** The instance of X23 for the argument [5]. *)
Lemma load_row_type_error_witness :
  ("a" ∈ ["a"]) /\ Sample.float "1" = Some 1%Z /\
  load_row Sample.float ["a"] (StrV "5") "t0" [("a", "1"); ("b", "7")] {["a" := ([], [])]} =
    Raise (TypeError "bad operand type for unary -: 'str'").
Proof.
  assert ("a" ∈ ["a"]) as Hin by apply list_elem_of_here.
  assert (Sample.float "1" = Some 1%Z) as Hval by (vm_compute; reflexivity).
  split; [exact Hin|]. split; [exact Hval|].
  exact (load_row_type_error Sample.float ["a"] "5" "t0" "a" "1" [("b", "7")]
           {["a" := ([], [])]} ([], []) 1%Z Hin (lookup_singleton_eq _ _) Hval).
Defined.

(** The instance of X1 for the sample log. *)
Lemma constructor_initial_state_witness :
  __init__ Sample.float "log.csv" ["a"] false true 3 {["log.csv" := Sample.wide_log]} =
    Ok (Sample.loaded 3) /\
  readings (Sample.loaded 3) !! "a" = Some [] /\
  readings (Sample.loaded 3) !! "b" = None /\
  _connected (Sample.loaded 3) = false.
Proof.
  split; [exact loaded_constructed|].
  destruct (constructor_initial_state Sample.float "log.csv" ["a"] false true 3
              {["log.csv" := Sample.wide_log]} (Sample.loaded 3) loaded_constructed)
    as (_ & Hr & _ & Hc & _).
  split; [exact (Hr "a")|]. split; [exact (Hr "b")|exact Hc].
Defined.

(** The instance of X2 with plotting off, the log being there. *)
Lemma constructor_without_history_witness :
  (false = false \/ ({["log.csv" := Sample.wide_log]} : gmap string string) !! "log.csv" = None) /\
  exists u : UserData (F:=Z),
    __init__ Sample.float "log.csv" ["a"] false false 3 {["log.csv" := Sample.wide_log]} = Ok u /\
    forall t : string, t ∈ ["a"] -> default_plot u !! t = Some ([], []).
Proof.
  split; [by left|].
  exact (constructor_without_history Sample.float "log.csv" ["a"] false false 3
           {["log.csv" := Sample.wide_log]} (or_introl eq_refl)).
Defined.

(** The instance of X3 for the sample log. *)
Lemma constructor_series_parallel_witness :
  __init__ Sample.float "log.csv" ["a"] false true 3 {["log.csv" := Sample.wide_log]} =
    Ok (Sample.loaded 3) /\
  series_parallel (default_plot (Sample.loaded 3)).
Proof.
  split; [exact loaded_constructed|].
  exact (constructor_series_parallel Sample.float "log.csv" ["a"] false true 3
           {["log.csv" := Sample.wide_log]} (Sample.loaded 3) loaded_constructed).
Defined.

(** The instance of X4: a third row on a window of two. *)
Lemma load_row_evicts_oldest_witness :
  (0 < 2)%Z /\ "a" ∈ ["a"] /\
  Sample.float "3" = Some 3%Z /\
  load_row Sample.float ["a"] 2 "t2" [("a", "3")] {["a" := (["t0"; "t1"], [1%Z; 2%Z])]} =
    Ok (<["a" := (drop 1 ["t0"; "t1"] ++ ["t2"], drop 1 [1%Z; 2%Z] ++ [3%Z])]>
          {["a" := (["t0"; "t1"], [1%Z; 2%Z])]}).
Proof.
  assert ("a" ∈ ["a"]) as Hin by apply list_elem_of_here.
  assert (Sample.float "3" = Some 3%Z) as Hval by (vm_compute; reflexivity).
  split; [lia|]. split; [exact Hin|]. split; [exact Hval|].
  apply (load_row_evicts_oldest Sample.float ["a"] 2 "t2" "a" "3"
           {["a" := (["t0"; "t1"], [1%Z; 2%Z])]} ["t0"; "t1"] [1%Z; 2%Z] 3%Z);
    [lia|exact Hin|apply lookup_singleton_eq|reflexivity|reflexivity|exact Hval].
Defined.

(** The instance of X5 for a topic that is no key of the sample store. *)
Lemma write_last_reading_without_reading_witness :
  last_reading (self (Sample.world false 3)) "c" = None /\
  exists e : exn,
    (e = KeyError "c" \/ e = IndexError) /\
    write_last_reading Sample.now "c" (Sample.world false 3) =
      (Raise e, mkWorld (Sample.fresh false 3) ∅ Sample.permissive 1 []).
Proof.
  assert (last_reading (self (Sample.world false 3)) "c" = None) as Hl
    by (vm_compute; reflexivity).
  split; [exact Hl|].
  exact (write_last_reading_without_reading Sample.now (Sample.world false 3) "c" Hl).
Defined.

(** The instance of X6: a log of one line, a store with one reading. *)
Lemma write_last_reading_appends_record_witness :
  let w := mkWorld (set_readings {["a" := ["1"]]} (Sample.fresh false 3))
             {["log.csv" := header +:+ nl]} Sample.permissive 0 [] in
  files w !! filename (self w) = Some (header +:+ nl) /\
  last_reading (self w) "a" = Some "1" /\
  fst (write_last_reading Sample.now "a" w) = Ok tt /\
  files (snd (write_last_reading Sample.now "a" w)) !! "log.csv" =
    Some (render [header; "t0,a,1"]).
Proof.
  intros w.
  assert (files w !! filename (self w) = Some (header +:+ nl)) as Hf
    by (vm_compute; reflexivity).
  assert (last_reading (self w) "a" = Some "1") as Hl by (vm_compute; reflexivity).
  split; [exact Hf|]. split; [exact Hl|].
  rewrite (write_last_reading_appends_record Sample.now w "a" "1" (header +:+ nl) Hf Hl).
  split; [reflexivity|]. vm_compute. reflexivity.
Defined.

(** The instance of X9: three messages, one for a topic out of the
    store, plotting on. *)
Lemma messages_stored_in_arrival_order_witness :
  let ms := [mkMessage "a" (list_byte_of_string "1");
             mkMessage "c" (list_byte_of_string "9");
             mkMessage "a" (list_byte_of_string "nan")] in
  let cs := [("a", "1"); ("c", "9"); ("a", "nan")] in
  Forall2 (fun m c => msg_topic m = fst c /\ Sample.decode_utf8 (msg_payload m) = Some (snd c))
    ms cs /\
  exists w' : World (F:=Z),
    for_each ms (on_message Sample.now Sample.decode_utf8) (Sample.world true 3) = (Ok tt, w') /\
    readings (self w') !! "a" = Some ["1"; "nan"] /\
    readings (self w') !! "c" = None.
Proof.
  intros ms cs.
  assert (Forall2 (fun m c => msg_topic m = fst c /\
                              Sample.decode_utf8 (msg_payload m) = Some (snd c)) ms cs) as Hall.
  { repeat constructor. }
  split; [exact Hall|].
  destruct (messages_stored_in_arrival_order Sample.now Sample.decode_utf8 ms cs
              (Sample.world true 3) Hall) as (w' & Hrun & Hst).
  exists w'. split; [exact Hrun|]. rewrite !Hst. split; vm_compute; reflexivity.
Defined.

(** The instance of X11 for the schedule of a connect acknowledgement
    followed by a disconnect, exceptions suppressed. *)
Lemma main_connects_once_witness :
  exists (r : result unit) (w : World (F:=Z)),
    main Sample.float Sample.now Sample.decode_utf8 "broker" 1883 ["a"] "log.csv" false 3 true
      [Some (ConnAck 0); Some (Disconnected 7); None] ∅ Sample.permissive = (r, Some w) /\
    List.filter is_connect (trace w) = [Connect "broker" 1883].
Proof.
  destruct (main Sample.float Sample.now Sample.decode_utf8 "broker" 1883 ["a"] "log.csv"
              false 3 true [Some (ConnAck 0); Some (Disconnected 7); None] ∅ Sample.permissive)
    as [r [w|]] eqn:Hrun; [|by vm_compute in Hrun].
  exists r, w. split; [reflexivity|].
  exact (main_connects_once Sample.float Sample.now Sample.decode_utf8 "broker" 1883 ["a"]
           "log.csv" false 3 true [Some (ConnAck 0); Some (Disconnected 7); None] ∅
           Sample.permissive r w Hrun).
Defined.

(** The instance of X13 for the record of the sample runs. *)
Lemma record_line_splits_witness :
  occurs comma "t0" = false /\ occurs comma "a" = false /\ occurs comma "21" = false /\
  split comma (record_line "t0" "a" "21" +:+ nl) = ["t0"; "a"; "21" +:+ nl].
Proof.
  split; [reflexivity|]. split; [reflexivity|]. split; [reflexivity|].
  exact (record_line_splits "t0" "a" "21" eq_refl eq_refl eq_refl).
Defined.

(** The instance of X14 for a log of the header and one record. *)
Lemma readlines_render_witness :
  Forall one_line [header; "t0,a,21"] /\
  readlines (render [header; "t0,a,21"]) = [header +:+ nl; "t0,a,21" +:+ nl].
Proof.
  assert (Forall one_line [header; "t0,a,21"]) as Hall
    by (repeat apply Forall_cons_2; try apply Forall_nil_2; by split).
  split; [exact Hall|]. exact (readlines_render [header; "t0,a,21"] Hall).
Defined.

(** The instance of X15: the log that one reading of topic [a] leaves is
    loaded as nothing for topic [a]. *)
Lemma own_log_loads_nothing_witness :
  let records := [("t0", "a", "21")] in
  let fs : gmap string string := {["log.csv" := render (header :: (line_of <$> records))]} in
  ("topic" ∉ ["a"]) /\ (("data" +:+ nl) ∉ ["a"]) /\
  fs !! "log.csv" = Some (render (header :: (line_of <$> records))) /\
  exists u : UserData (F:=Z),
    __init__ Sample.float "log.csv" ["a"] false true 3 fs = Ok u /\
    forall t : string, t ∈ ["a"] -> default_plot u !! t = Some ([], []).
Proof.
  intros records fs.
  assert ("topic" ∉ ["a"]) as Ht by (apply (bool_decide_unpack _); vm_compute; exact I).
  assert (("data" +:+ nl) ∉ ["a"]) as Hd by (apply (bool_decide_unpack _); vm_compute; exact I).
  assert (fs !! "log.csv" = Some (render (header :: (line_of <$> records)))) as Hf
    by apply lookup_singleton_eq.
  split; [exact Ht|]. split; [exact Hd|]. split; [exact Hf|].
  exact (own_log_loads_nothing Sample.float "log.csv" ["a"] false 3 fs records Ht Hd Hf).
Defined.

(** The instance of X16 for the result code 5. *)
Lemma on_connect_refused_witness :
  5%Z <> 0%Z /\
  on_connect 5 (Sample.world true 3) =
    (Ok tt, mkWorld (Sample.fresh true 3) ∅ Sample.permissive 0
              [Printed ("Connected " +:+ pretty 5%Z)]).
Proof.
  assert (5%Z <> 0%Z) as Hrc by discriminate.
  split; [exact Hrc|].
  exact (on_connect_refused 5 (Sample.world true 3) Hrc).
Defined.

(** The instance of X17 for the sample log and a window of three. *)
Lemma init_window_bounded_witness :
  (0 < 3)%Z /\
  __init__ Sample.float "log.csv" ["a"] false true 3 {["log.csv" := Sample.wide_log]} =
    Ok (Sample.loaded 3) /\
  window_bounded 3 (default_plot (Sample.loaded 3)).
Proof.
  assert (0 < 3)%Z as Hn by lia.
  split; [exact Hn|]. split; [exact loaded_constructed|].
  exact (init_window_bounded Sample.float "log.csv" ["a"] false true 3
           {["log.csv" := Sample.wide_log]} (Sample.loaded 3) Hn loaded_constructed).
Defined.

(** The instance of X18 for the field [abc]. *)
Lemma load_row_value_error_witness :
  "a" ∈ ["a"] /\ Sample.float "abc" = None /\
  load_row Sample.float ["a"] 3 "t0" [("a", "abc"); ("b", "7")] {["a" := ([], [])]} =
    Raise (ValueError "abc").
Proof.
  assert ("a" ∈ ["a"]) as Hin by apply list_elem_of_here.
  assert (Sample.float "abc" = None) as Hval by (vm_compute; reflexivity).
  split; [exact Hin|]. split; [exact Hval|].
  exact (load_row_value_error Sample.float ["a"] 3 "t0" "a" "abc" [("b", "7")]
           {["a" := ([], [])]} ([], []) Hin (lookup_singleton_eq _ _) Hval).
Defined.

(** The instance of X19 at the sample store for the value [21]. *)
Lemma add_reading_plot_raises_witness :
  readings (self (Sample.world true 3)) !! "a" = Some [] /\
  plot (self (Sample.world true 3)) = true /\
  "21" <> "nan" /\
  exists e : exn,
    fst (add_reading Sample.now "a" "21" (Sample.world true 3)) = Raise e /\
    files (snd (add_reading Sample.now "a" "21" (Sample.world true 3))) = ∅ /\
    readings (self (snd (add_reading Sample.now "a" "21" (Sample.world true 3)))) !! "a"
      = Some ["21"].
Proof.
  assert (readings (self (Sample.world true 3)) !! "a" = Some []) as Hl
    by (vm_compute; reflexivity).
  assert ("21" <> "nan") as Hd by discriminate.
  split; [exact Hl|]. split; [reflexivity|]. split; [exact Hd|].
  destruct (add_reading_plot_raises Sample.now (Sample.world true 3) "a" "21" [] Hl eq_refl Hd)
    as [e Hrun].
  exists e. rewrite Hrun. split; [reflexivity|]. split; [reflexivity|].
  cbn [snd self set_readings readings]. apply lookup_insert_eq.
Defined.
